(** * MyVideo overlay: session, preference resolution and UI coordination

    A shallow embedding of the decision logic of [src/App.tsx] and of the
    authentication modal ([components/AuthModal]), followed by the
    properties stated about them.

    Asynchronous calls are modelled by their outcome (a value or a
    rejection), React state by a record, and the browser (timers, local
    storage, document listeners) by the part of its state the code reads
    and writes. *)

From Stdlib Require Import Ascii String ZArith QArith.
From stdpp Require Import base gmap strings list.

Local Open Scope string_scope.
Local Open Scope list_scope.
Local Open Scope Z_scope.

(* ===================================================================== *)
(** * Values shared by the components *)
(* ===================================================================== *)

(** [firebase.User], reduced to the attributes the overlay reads. *)
Record User := mkUser { uid : string; email : option string }.

Global Instance User_eq_dec : EqDecision User := ltac:(solve_decision).

(** A JavaScript string used as a condition: only the empty string is
    falsy. *)
Definition truthy (s : string) : bool := bool_decide (s ≠ "").

(** One bundle of display strings of the catalog; only the entries the
    modelled code reads are kept. *)
Record Bundle := mkBundle {
  translationActive : string;
  subtitleSamples : list string;
  errorFillFields : string;
  errorEmailInUse : string;
  errorInvalidEmail : string;
  errorInvalidCredential : string;
  errorWeakPassword : string;
  errorUnexpected : string
}.

(** Modelled from the spec: the translation catalog [lib/i18n] is not part
    of the sources at hand.  It is a static mapping from language codes to
    bundles; the code reads [translations.en] as a property, so that entry
    always exists, and every other key may or may not be present. *)
Record Translations := mkTranslations {
  en : Bundle;
  others : gmap string Bundle
}.

(** [translations[k]], on the catalog's own keys. *)
Global Instance Translations_lookup : Lookup string Bundle Translations :=
  fun k tr => if decide (k = "en") then Some (en tr) else others tr !! k.

(** [translations[lang] || translations.en] (App.tsx line 35, AuthModal
    line 23). *)
Definition bundle_of (tr : Translations) (lang : string) : Bundle :=
  default (en tr) (tr !! lang).

(* ===================================================================== *)
(** * String helpers of the JavaScript runtime *)
(* ===================================================================== *)

(** [s.split('-')[0]]: the characters before the first hyphen. *)
Fixpoint primary_subtag (s : string) : string :=
  match s with
  | EmptyString => EmptyString
  | String c rest =>
      if Ascii.eqb c "-"%char then EmptyString
      else String c (primary_subtag rest)
  end.

Definition lower_ascii (c : ascii) : ascii :=
  let n := nat_of_ascii c in
  if (Nat.leb 65 n && Nat.leb n 90)%bool then ascii_of_nat (n + 32)%nat else c.

(** [s.toLowerCase()], on the ASCII letters (country codes are ASCII). *)
Fixpoint toLowerCase (s : string) : string :=
  match s with
  | EmptyString => EmptyString
  | String c rest => String (lower_ascii c) (toLowerCase rest)
  end.

(* ===================================================================== *)
(** * Preference resolver: [loadUserProfile] (App.tsx lines 56-106) *)
(* ===================================================================== *)

Module Resolver.

(** A Firestore document: its fields.  The collection ['users'] maps a
    uid to a document; an absent key is a document that does not exist. *)
Abbreviation Doc := (gmap string string).
Abbreviation Store := (gmap string (gmap string string)).

(** [doc.set(fields, { merge: true })]: create the document when it is
    missing, otherwise overwrite the given fields only. *)
Definition set_merge (id : string) (fields : Doc) (s : Store) : Store :=
  <[ id := fields ∪ default ∅ (s !! id) ]> s.

(** Outcome of [fetch('https://ipapi.co/json/')] followed by
    [response.json()]: either of them rejects, or a JSON object whose
    [country_code] may be missing. *)
Inductive FetchResult :=
| FetchRejects
| FetchJson (country_code : option string).

(** What the pass reads from outside. *)
Record Env := mkEnv {
  get_rejects : bool;                 (* [userDocRef.get()] throws *)
  set_rejects : bool;                 (* the write-back is rejected *)
  localStorage : gmap string string;
  navigator_language : string;
  ipapi : FetchResult
}.

(** Observable actions of a pass, in program order. *)
Inductive Event :=
| DurableGet (id : string)
| ConsoleError
| ConsoleWarn
| LocalStorageGet (key : string)
| Fetch (url : string)
| DurableSetMerge (id : string) (fields : Doc)
| SetDetectedLang (lang : string).

Global Instance Event_eq_dec : EqDecision Event := ltac:(solve_decision).

Record World := mkWorld {
  detectedLang : string;    (* React state, initially 'en' *)
  db : Store;               (* collection 'users' *)
  trace : list Event
}.

(** ** A state monad with early return *)

Inductive Flow (A : Type) :=
| Next (a : A)
| Return_.
Arguments Next {A} a.
Arguments Return_ {A}.

Definition Async (A : Type) : Type := World → Flow A * World.

Definition ret {A} (a : A) : Async A := fun w => (Next a, w).
Definition bind {A B} (m : Async A) (k : A → Async B) : Async B :=
  fun w => match m w with
           | (Next a, w') => k a w'
           | (Return_, w') => (Return_, w')
           end.
(** The [return;] statement of the async function. *)
Definition return_ {A} : Async A := fun w => (Return_, w).

Global Instance Async_ret : MRet Async := @ret.
Global Instance Async_bind : MBind Async := fun A B k m => bind m k.

Definition emit (e : Event) : Async unit :=
  fun w => (Next tt, mkWorld (detectedLang w) (db w) (trace w ++ [e])).

Definition setDetectedLang (l : string) : Async unit :=
  fun w => (Next tt, mkWorld l (db w) (trace w ++ [SetDetectedLang l])).

Definition skip : Async unit := ret tt.

(** Final world of a computation, whichever way it ends. *)
Definition exec {A} (m : Async A) (w : World) : World := snd (m w).

Section Pass.
Context (translations : Translations) (env : Env).

(** [await userDocRef.get()]: [None] when the promise rejects, otherwise
    the snapshot ([None] inside for [doc.exists = false]). *)
Definition doc_get (id : string) : Async (option (option Doc)) :=
  fun w =>
    let w' := mkWorld (detectedLang w) (db w) (trace w ++ [DurableGet id]) in
    if get_rejects env then (Next None, w')
    else (Next (Some (db w !! id)), w').

(** [doc.exists && doc.data()?.language]: the language when the
    condition is truthy. *)
Definition stored_language (snapshot : option Doc) : option string :=
  match snapshot with
  | Some fields =>
      match fields !! "language" with
      | Some l => if truthy l then Some l else None
      | None => None
      end
  | None => None
  end.

Definition localStorage_getItem (key : string) : Async (option string) :=
  fun w =>
    (Next (localStorage env !! key),
     mkWorld (detectedLang w) (db w) (trace w ++ [LocalStorageGet key])).

(** [lastUsedLang && translations[lastUsedLang]] (line 74). *)
Definition supported (l : string) : bool :=
  truthy l && bool_decide (is_Some (translations !! l)).

(** The table [langMap] of line 89. *)
Definition langMap (countryCode : string) : option string :=
  if decide (countryCode = "es") then Some "es"
  else if decide (countryCode = "mx") then Some "es"
  else if decide (countryCode = "fr") then Some "fr"
  else if decide (countryCode = "pt") then Some "pt"
  else if decide (countryCode = "br") then Some "pt"
  else None.

(** Lines 85-95: the [try] block around the geolocation lookup; the
    result is the new value of [langToSet]. *)
Definition detect_by_ip (langToSet : string) : Async string :=
  emit (Fetch "https://ipapi.co/json/");;
  match ipapi env with
  | FetchRejects => emit ConsoleWarn;; ret langToSet
  | FetchJson data_country_code =>
      match toLowerCase <$> data_country_code with
      | Some countryCode =>
          if truthy countryCode then
            match langMap countryCode with
            | Some l => ret l
            | None => ret langToSet
            end
          else ret langToSet
      | None => ret langToSet
      end
  end.

(** The write of line 101; it is not awaited, so a rejection is not
    observed by the pass. *)
Definition doc_set_merge (id : string) (fields : Doc) : Async unit :=
  fun w =>
    (Next tt,
     mkWorld (detectedLang w)
             (if set_rejects env then db w else set_merge id fields (db w))
             (trace w ++ [DurableSetMerge id fields])).

Definition loadUserProfile_body (user : option User) : Async unit :=
  (* Priority 1: Firestore, for a logged-in user *)
  match user with
  | Some u =>
      doc ← doc_get (uid u);
      match doc with
      | Some snapshot =>
          match stored_language snapshot with
          | Some l => setDetectedLang l;; return_
          | None => skip
          end
      | None => emit ConsoleError
      end
  | None => skip
  end;;
  (* Priority 2: local storage *)
  lastUsedLang ← localStorage_getItem "youvoix-lang";
  match lastUsedLang with
  | Some l => if supported l then setDetectedLang l;; return_ else skip
  | None => skip
  end;;
  (* Priority 3: auto-detection *)
  let browserLang := primary_subtag (navigator_language env) in
  langToSet ←
    (if bool_decide (is_Some (translations !! browserLang))
     then ret browserLang
     else detect_by_ip "en");
  setDetectedLang langToSet;;
  match user with
  | Some u => doc_set_merge (uid u) {[ "language" := langToSet ]}
  | None => skip
  end.

Definition loadUserProfile (user : option User) (w : World) : World :=
  exec (loadUserProfile_body user) w.

(** ** Which signal resolves the language

    The conditions of the three synchronous steps, as the pass evaluates
    them. *)

(** Step 1 adopts the stored code: the read succeeds and the condition of
    line 63 is truthy. *)
Definition durable_hit (user : option User) (w : World) : bool :=
  match user with
  | Some u =>
      negb (get_rejects env)
      && bool_decide (is_Some (stored_language (db w !! uid u)))
  | None => false
  end.

(** Step 2 adopts the local-storage entry (line 74). *)
Definition local_hit : bool :=
  match localStorage env !! "youvoix-lang" with
  | Some l => supported l
  | None => false
  end.

(** Step 3 adopts the primary subtag of the locale (line 82). *)
Definition locale_hit : bool :=
  bool_decide (is_Some (translations !! primary_subtag (navigator_language env))).

Definition is_fetch (e : Event) : bool :=
  match e with Fetch _ => true | _ => false end.

Definition is_write (e : Event) : bool :=
  match e with DurableSetMerge _ _ => true | _ => false end.

(** The write-back of step 5 as the specification words it: for a present
    identity whose language was not adopted from the durable record, the
    record afterwards is the old one merged with the resolved code. *)
Definition written_back_as_specified (u : User) (w : World) : Prop :=
  durable_hit (Some u) w = false →
  set_rejects env = false →
  let w' := loadUserProfile (Some u) w in
  db w' !! uid u
  = Some ({[ "language" := detectedLang w' ]} ∪ default ∅ (db w !! uid u)).

End Pass.

(** A world at the start of a pass, with nothing observed yet. *)
Definition start (lang : string) (store : Store) : World :=
  mkWorld lang store [].

End Resolver.

(* ===================================================================== *)
(** * Session tracker, panel coordinator and drag/click disambiguator
      (App.tsx lines 39-53, 123-155 and 181-218) *)
(* ===================================================================== *)

Module App.

(** A CSS length of the floating control's inline style. *)
Inductive Css :=
| Unset
| Auto
| Px (n : Z).

Record Style := mkStyle {
  left : Css;
  top : Css;
  right : Css;
  bottom : Css
}.

(** Coordinates of a mouse event. *)
Record MouseEvent := mkMouse { clientX : Z; clientY : Z }.

(** [buttonRef.current], reduced to the layout values [handleDrag] reads. *)
Record Button := mkButton { offsetLeft : Z; offsetTop : Z }.

(** Where a document-level [mousedown] lands.  The element behind
    [buttonRef] is the container of both the control and the panel. *)
Inductive Target :=
| OnPanel
| OnControl
| Elsewhere.

Definition panel_contains (t : Target) : bool :=
  match t with OnPanel => true | _ => false end.

Definition button_contains (t : Target) : bool :=
  match t with OnPanel | OnControl => true | Elsewhere => false end.

Record State := mkState {
  (* React state *)
  user : option User;
  loading : bool;
  isAuthModalOpen : bool;
  isPanelOpen : bool;
  isSettingsOpen : bool;
  (* refs *)
  inactivityTimerRef : option nat;
  (* the browser *)
  timeouts : gset nat;        (* ids of the scheduled, not yet fired timeouts *)
  next_timer : nat;           (* next id [window.setTimeout] hands out *)
  outside_listener : bool;    (* [handleOutsideClick] is registered on the document *)
  hover_listeners : bool;     (* the mounted panel carries the mouseenter/mouseleave listeners *)
  style : Style               (* inline style of the floating control *)
}.

(** The state after the first render: [useState] initial values, no timer,
    the control anchored to the bottom right corner.  Timer ids handed out
    by the browser are positive. *)
Definition init : State :=
  mkState None true false false false None ∅ 1%nat false false
          (mkStyle Unset Unset (Px 24) (Px 24)).

(** ** State setters *)

Definition setUser (u : option User) (s : State) : State :=
  mkState u (loading s) (isAuthModalOpen s) (isPanelOpen s) (isSettingsOpen s)
          (inactivityTimerRef s) (timeouts s) (next_timer s)
          (outside_listener s) (hover_listeners s) (style s).

Definition setLoading (b : bool) (s : State) : State :=
  mkState (user s) b (isAuthModalOpen s) (isPanelOpen s) (isSettingsOpen s)
          (inactivityTimerRef s) (timeouts s) (next_timer s)
          (outside_listener s) (hover_listeners s) (style s).

Definition setIsAuthModalOpen (b : bool) (s : State) : State :=
  mkState (user s) (loading s) b (isPanelOpen s) (isSettingsOpen s)
          (inactivityTimerRef s) (timeouts s) (next_timer s)
          (outside_listener s) (hover_listeners s) (style s).

Definition setIsPanelOpen (f : bool → bool) (s : State) : State :=
  mkState (user s) (loading s) (isAuthModalOpen s) (f (isPanelOpen s))
          (isSettingsOpen s)
          (inactivityTimerRef s) (timeouts s) (next_timer s)
          (outside_listener s) (hover_listeners s) (style s).

Definition setIsSettingsOpen (f : bool → bool) (s : State) : State :=
  mkState (user s) (loading s) (isAuthModalOpen s) (isPanelOpen s)
          (f (isSettingsOpen s))
          (inactivityTimerRef s) (timeouts s) (next_timer s)
          (outside_listener s) (hover_listeners s) (style s).

Definition set_timers (ref : option nat) (pending : gset nat) (next : nat)
    (s : State) : State :=
  mkState (user s) (loading s) (isAuthModalOpen s) (isPanelOpen s)
          (isSettingsOpen s) ref pending next
          (outside_listener s) (hover_listeners s) (style s).

Definition set_listeners (outside hover : bool) (s : State) : State :=
  mkState (user s) (loading s) (isAuthModalOpen s) (isPanelOpen s)
          (isSettingsOpen s)
          (inactivityTimerRef s) (timeouts s) (next_timer s)
          outside hover (style s).

Definition set_style (st : Style) (s : State) : State :=
  mkState (user s) (loading s) (isAuthModalOpen s) (isPanelOpen s)
          (isSettingsOpen s)
          (inactivityTimerRef s) (timeouts s) (next_timer s)
          (outside_listener s) (hover_listeners s) st.

(** ** What is mounted (lines 220, 253-254) *)

(** [if (loading) return null]: nothing is rendered before the first
    authentication notification. *)
Definition control_mounted (s : State) : bool := negb (loading s).

(** [{isPanelOpen && user && (<div ref={panelRef} ...>)}] *)
Definition panel_mounted (s : State) : bool :=
  negb (loading s) && isPanelOpen s && bool_decide (is_Some (user s)).

(** [{isSettingsOpen && (...)}], inside the panel. *)
Definition settings_mounted (s : State) : bool :=
  panel_mounted s && isSettingsOpen s.

(** ** Timers (lines 124-127) *)

Definition clearTimeout (id : nat) (s : State) : State :=
  set_timers (inactivityTimerRef s) (timeouts s ∖ {[ id ]}) (next_timer s) s.

(** [if (inactivityTimerRef.current) clearTimeout(inactivityTimerRef.current)]:
    a number is truthy unless it is zero. *)
Definition clear_inactivity (s : State) : State :=
  match inactivityTimerRef s with
  | Some id => if bool_decide (id ≠ 0%nat) then clearTimeout id s else s
  | None => s
  end.

(** [inactivityTimerRef.current = window.setTimeout(..., 5000)] *)
Definition arm_inactivity (s : State) : State :=
  let id := next_timer s in
  set_timers (Some id) (timeouts s ∪ {[ id ]}) (S id) s.

Definition resetInactivityTimer (s : State) : State :=
  arm_inactivity (clear_inactivity s).

(** ** The panel effect (lines 129-155) *)

Definition panel_effect_cleanup (s : State) : State :=
  clear_inactivity (set_listeners false (hover_listeners s) s).

Definition panel_effect (s : State) : State :=
  if isPanelOpen s then
    let s1 := resetInactivityTimer s in
    (* document mousedown listener, and the two listeners on
       [panelRef.current] when the panel is mounted *)
    set_listeners true (panel_mounted s1) s1
  else clear_inactivity s.

(** After a handler ran: React re-runs the effect when [isPanelOpen]
    changed (cleanup first); listeners on an unmounted panel are gone with
    the element. *)
Definition commit (prev s : State) : State :=
  let s1 :=
    if bool_decide (isPanelOpen prev = isPanelOpen s) then s
    else panel_effect (panel_effect_cleanup s) in
  set_listeners (outside_listener s1)
                (hover_listeners s1 && panel_mounted s1) s1.

(** ** Handlers *)

(** The callback of [auth.onAuthStateChanged] (lines 41-51). *)
Definition onAuthStateChanged (currentUser : option User) (s : State) : State :=
  let s := setLoading false (setUser currentUser s) in
  match currentUser with
  | Some _ => setIsPanelOpen (fun _ => true) s
  | None => setIsSettingsOpen (fun _ => false) (setIsPanelOpen (fun _ => false) s)
  end.

(** [handleOutsideClick] (lines 130-138); [isPanelOpen_] is the value the
    closure captured when the listener was registered. *)
Definition handleOutsideClick (isPanelOpen_ : bool) (target : Target)
    (s : State) : State :=
  if isPanelOpen_
     && (panel_mounted s && negb (panel_contains target))
     && (control_mounted s && negb (button_contains target))
  then setIsPanelOpen (fun _ => false) s
  else s.

(** The callback scheduled by [resetInactivityTimer]. *)
Definition inactivity_expired (s : State) : State :=
  setIsPanelOpen (fun _ => false) s.

(** ** Drag or click (lines 182-218) *)

Record DragSession := mkDrag {
  hasMoved : bool;
  startX : Z;
  startY : Z;
  startLeft : Z;
  startTop : Z
}.

Definition onMouseMove (moveEvent : MouseEvent) (d : DragSession * Style)
    : DragSession * Style :=
  let '(drag, st) := d in
  let dx := clientX moveEvent - startX drag in
  let dy := clientY moveEvent - startY drag in
  if (5 <? Z.abs dx) || (5 <? Z.abs dy) then
    (mkDrag true (startX drag) (startY drag) (startLeft drag) (startTop drag),
     mkStyle (Px (startLeft drag + dx)) (Px (startTop drag + dy)) Auto Auto)
  else d.

(** What a click on the control does. *)
Inductive ClickAction :=
| TogglePanel       (* [setIsPanelOpen(prev => !prev)] *)
| OpenAuthPrompt.   (* [setIsAuthModalOpen(true)] *)

(** [onMouseUp]: the actions it fires; [user_] is the identity captured by
    the closure at mouse-down. *)
Definition onMouseUp (user_ : option User) (drag : DragSession)
    : list ClickAction :=
  if hasMoved drag then []
  else match user_ with
       | Some _ => [TogglePanel]
       | None => [OpenAuthPrompt]
       end.

(** One complete gesture: [handleDrag] on mouse-down, the mouse moves seen
    by the document listener, then mouse-up.  Without a button element the
    handler returns at once and registers nothing. *)
Definition handleDrag (button : option Button) (user_ : option User)
    (e : MouseEvent) (moves : list MouseEvent) (st : Style)
    : list ClickAction * Style :=
  match button with
  | None => ([], st)
  | Some b =>
      let drag0 := mkDrag false (clientX e) (clientY e) (offsetLeft b) (offsetTop b) in
      let '(drag, st') := foldl (fun d m => onMouseMove m d) (drag0, st) moves in
      (onMouseUp user_ drag, st')
  end.

Definition perform (a : ClickAction) (s : State) : State :=
  match a with
  | TogglePanel => setIsPanelOpen negb s
  | OpenAuthPrompt => setIsAuthModalOpen true s
  end.

(** ** The event loop *)

Inductive Event :=
| AuthStateChanged (currentUser : option User)
| DocumentMouseDown (target : Target)
| TimeoutFires (id : nat)
| PanelMouseEnter
| PanelMouseLeave
| SettingsClick
| ControlGesture (b : Button) (e : MouseEvent) (moves : list MouseEvent).

(** The handler an event reaches, if any is listening. *)
Definition handle (ev : Event) (s : State) : State :=
  match ev with
  | AuthStateChanged u => onAuthStateChanged u s
  | DocumentMouseDown t =>
      (* registered only in the branch where [isPanelOpen] is true *)
      if outside_listener s then handleOutsideClick true t s else s
  | TimeoutFires id =>
      if bool_decide (id ∈ timeouts s)
      then inactivity_expired
             (set_timers (inactivityTimerRef s) (timeouts s ∖ {[ id ]})
                         (next_timer s) s)
      else s
  | PanelMouseEnter => if hover_listeners s then clear_inactivity s else s
  | PanelMouseLeave => if hover_listeners s then resetInactivityTimer s else s
  | SettingsClick =>
      if panel_mounted s then setIsSettingsOpen negb s else s
  | ControlGesture b e moves =>
      if control_mounted s then
        let '(acts, st') := handleDrag (Some b) (user s) e moves (style s) in
        foldr perform (set_style st' s) acts
      else s
  end.

Definition step (s : State) (ev : Event) : State := commit s (handle ev s).

Definition run (evs : list Event) : State := foldl step init evs.

(** Timer bookkeeping: the ids the browser hands out are positive and
    increasing, and the only timeout that can be pending is the one
    [inactivityTimerRef] points to. *)
Definition timers_ok (s : State) : Prop :=
  next_timer s ≠ 0%nat
  ∧ (∀ id, inactivityTimerRef s = Some id → (0 < id < next_timer s)%nat)
  ∧ (∀ id, id ∈ timeouts s → inactivityTimerRef s = Some id).

(** What holds in every state the event loop reaches: the timer
    bookkeeping, no pending timeout while the panel is closed, the
    document listener registered exactly while the panel is open, and
    hover listeners only on a mounted panel. *)
Definition coherent (s : State) : Prop :=
  timers_ok s
  ∧ (isPanelOpen s = false → timeouts s = ∅)
  ∧ outside_listener s = isPanelOpen s
  ∧ (hover_listeners s = true → panel_mounted s = true).

(** The PanelState invariant of the data model. *)
Definition panel_invariant (s : State) : Prop :=
  isSettingsOpen s = true → isPanelOpen s = true.

(** Some mouse move of the gesture is more than 5 px away from the
    mouse-down position along an axis. *)
Definition exceeds_threshold (e : MouseEvent) (moves : list MouseEvent) : bool :=
  existsb (fun m => (5 <? Z.abs (clientX m - clientX e))
                    || (5 <? Z.abs (clientY m - clientY e))) moves.

End App.

(* ===================================================================== *)
(** * Subtitle simulator (App.tsx lines 108-121) *)
(* ===================================================================== *)

Module Subtitles.

(** ** Numbers

    A finite non-negative binary64 number, as its integer significand and
    its exponent: the number is [mant * 2^expo]. *)
Record Double := mkDouble {
  mant : Z;
  expo : Z
}.

(** What [Math.random()] may return: a binary64 number at least 0 and
    less than 1.  These are the numbers [m * 2^e] with a significand of at
    most 53 bits and an exponent between -1074 and -53. *)
Definition in_unit_interval (r : Double) : Prop :=
  0 <= mant r < 2 ^ 53 ∧ -1074 <= expo r <= -53.

(** The number a [Double] stands for. *)
Definition value (r : Double) : Q :=
  if 0 <=? expo r then inject_Z (mant r * 2 ^ expo r)
  else Qmake (mant r) (Z.to_pos (2 ^ (- expo r))).

(** The largest binary64 number below 1, [1 - 2^-53]. *)
Definition below_one : Q := Qmake (2 ^ 53 - 1) (Z.to_pos (2 ^ 53)).

(** [m / 2^shift] rounded to the nearest integer, ties to the even one. *)
Definition round_shift (m shift : Z) : Z :=
  if shift <=? 0 then m
  else
    let q := m / 2 ^ shift in
    let rest := m mod 2 ^ shift in
    let half := 2 ^ (shift - 1) in
    if rest <? half then q
    else if half <? rest then q + 1
    else if Z.even q then q else q + 1.

(** [Math.floor] of the binary64 product of [m * 2^e] (here with the other
    factor already multiplied into [m]): the exact product is rounded to 53
    significant bits, to nearest and ties to even, and the result is
    rounded down to an integer.  With an exponent of at least -1074 the
    rounding never falls into the subnormal range. *)
Definition floor_of_product (m e : Z) : Z :=
  let shift := Z.max 0 (Z.log2 m + 1 - 53) in
  let rounded := round_shift m shift in
  let e' := e + shift in
  if 0 <=? e' then rounded * 2 ^ e' else rounded / 2 ^ (- e').

(** [Math.floor(r * n)] for the result [r] of [Math.random()] and the
    array length [n], computed in binary64 as line 114 does. *)
Definition randomIndex (r : Double) (n : nat) : Z :=
  floor_of_product (mant r * Z.of_nat n) (expo r).

(** [samples[i]]: [undefined] outside of the array. *)
Definition sample_at (l : list string) (i : Z) : option string :=
  if 0 <=? i then l !! Z.to_nat i else None.

(** ** The catalog as a JavaScript object

    The names every object literal inherits from [Object.prototype]. *)
Definition object_prototype_names : list string :=
  ["constructor"; "hasOwnProperty"; "isPrototypeOf"; "propertyIsEnumerable";
   "toLocaleString"; "toString"; "valueOf"; "__proto__";
   "__defineGetter__"; "__defineSetter__"; "__lookupGetter__";
   "__lookupSetter__"].

(** The value of [translations[detectedLang] || translations.en]: a bundle
    of the catalog, known by its key, or a member inherited from
    [Object.prototype] (a function, or the prototype itself), which is
    truthy and has none of the properties of a bundle. *)
Inductive TValue :=
| BundleObj (key : string) (b : Bundle)
| InheritedObj (name : string).

Global Instance Bundle_eq_dec : EqDecision Bundle := ltac:(solve_decision).
Global Instance TValue_eq_dec : EqDecision TValue := ltac:(solve_decision).

(** [t.translationActive] *)
Definition translationActive_of (tv : TValue) : option string :=
  match tv with
  | BundleObj _ b => Some (translationActive b)
  | InheritedObj _ => None
  end.

(** ** State *)

(** A timer created by [setInterval(cb, 3000)]: when it fires next, and
    the [t] its callback's closure holds. *)
Record Interval := mkInterval {
  due : Z;
  closure_t : TValue
}.

Record State := mkState {
  (* React state *)
  user : option User;
  subtitlesEnabled : bool;
  isTranslationStopped : bool;
  detectedLang : string;
  currentSubtitle : option string;   (* [None] is [undefined] *)
  (* the cleanup function returned by the last run of the effect: the
     interval id its closure holds *)
  cleanup : option nat;
  (* the browser *)
  intervals : list (nat * Interval); (* live interval timers, oldest first *)
  next_interval : nat;               (* next id [setInterval] hands out *)
  now : Z;                           (* the clock, in timer units *)
  draws : nat                        (* calls of [Math.random] so far *)
}.

Definition init : State :=
  mkState None true false "en" (Some "") None [] 1%nat 0 0%nat.

Section Simulator.
Context (translations : Translations).
(** Successive results of [Math.random()]. *)
Context (random : nat → Double).

(** [const t = translations[detectedLang] || translations.en] (line 35):
    an own key gives its bundle, an inherited name gives the inherited
    member, anything else is [undefined] and gives the English bundle. *)
Definition t (s : State) : TValue :=
  match translations !! detectedLang s with
  | Some b => BundleObj (detectedLang s) b
  | None =>
      if bool_decide (detectedLang s ∈ object_prototype_names)
      then InheritedObj (detectedLang s)
      else BundleObj "en" (en translations)
  end.

(** [user && subtitlesEnabled && !isTranslationStopped] *)
Definition active (s : State) : bool :=
  bool_decide (is_Some (user s)) && subtitlesEnabled s
  && negb (isTranslationStopped s).

Definition setCurrentSubtitle (c : option string) (s : State) : State :=
  mkState (user s) (subtitlesEnabled s) (isTranslationStopped s)
          (detectedLang s) c (cleanup s) (intervals s) (next_interval s)
          (now s) (draws s).

Definition set_timers (c : option nat) (l : list (nat * Interval)) (next : nat)
    (s : State) : State :=
  mkState (user s) (subtitlesEnabled s) (isTranslationStopped s)
          (detectedLang s) (currentSubtitle s) c l next (now s) (draws s).

(** [clearInterval(id)] *)
Definition clearInterval (id : nat) (l : list (nat * Interval))
    : list (nat * Interval) :=
  List.filter (fun p => negb (Nat.eqb (fst p) id)) l.

(** The function returned by the last run of the effect, if it returned
    one: [() => clearInterval(interval)] (line 117). *)
Definition effect_cleanup (s : State) : State :=
  match cleanup s with
  | Some id =>
      set_timers None (clearInterval id (intervals s)) (next_interval s) s
  | None => s
  end.

(** The body of the effect (lines 110-120). *)
Definition effect (s : State) : State :=
  if active s then
    let s1 := setCurrentSubtitle (translationActive_of (t s)) s in
    let id := next_interval s1 in
    set_timers (Some id)
               (intervals s1 ++ [(id, mkInterval (now s1 + 3000) (t s))])
               (S id) s1
  else set_timers None (intervals s) (next_interval s)
                  (setCurrentSubtitle (Some "") s).

(** The dependency array [[user, subtitlesEnabled, isTranslationStopped, t]],
    compared with [Object.is]. *)
Definition same_deps (a b : State) : bool :=
  bool_decide (user a = user b)
  && bool_decide (subtitlesEnabled a = subtitlesEnabled b)
  && bool_decide (isTranslationStopped a = isTranslationStopped b)
  && bool_decide (t a = t b).

(** After a render: the effect runs again when a dependency changed, the
    cleanup of its last run first. *)
Definition commit (prev s : State) : State :=
  if same_deps prev s then s else effect (effect_cleanup s).

(** The interval callback (lines 113-115).  [Math.random()] is called
    before [samples.length] is read; on an inherited member [samples] is
    [undefined], reading its length throws and the caption is left as it
    is. *)
Definition interval_callback (tv : TValue) (s : State) : State :=
  let s1 := mkState (user s) (subtitlesEnabled s) (isTranslationStopped s)
                    (detectedLang s) (currentSubtitle s) (cleanup s)
                    (intervals s) (next_interval s) (now s) (S (draws s)) in
  match tv with
  | BundleObj _ b =>
      let samples := subtitleSamples b in
      let randomIndex := randomIndex (random (draws s)) (length samples) in
      setCurrentSubtitle (sample_at samples randomIndex) s1
  | InheritedObj _ => s1
  end.

(** A fired interval is scheduled again one period later. *)
Definition reschedule (id : nat) (l : list (nat * Interval))
    : list (nat * Interval) :=
  map (fun p => if Nat.eqb (fst p) id
                then (fst p, mkInterval (due (snd p) + 3000) (closure_t (snd p)))
                else p) l.

Definition fire (s : State) (p : nat * Interval) : State :=
  if now s =? due (snd p) then
    let s1 := interval_callback (closure_t (snd p)) s in
    set_timers (cleanup s1) (reschedule (fst p) (intervals s1))
               (next_interval s1) s1
  else s.

(** One unit of time passes; the intervals that come due fire, oldest
    first. *)
Definition tick (s : State) : State :=
  let s1 := mkState (user s) (subtitlesEnabled s) (isTranslationStopped s)
                    (detectedLang s) (currentSubtitle s) (cleanup s)
                    (intervals s) (next_interval s) (now s + 1) (draws s) in
  foldl fire s1 (intervals s1).

Inductive Event :=
| SetUser (u : option User)
| SetSubtitlesEnabled (checked : bool)
| ToggleStopped
| SetDetectedLang (lang : string)
| Tick.

(** The state a handler leaves, which React renders and commits before
    the effect runs. *)
Definition handle (ev : Event) (s : State) : State :=
  match ev with
  | SetUser u =>
      mkState u (subtitlesEnabled s) (isTranslationStopped s)
              (detectedLang s) (currentSubtitle s) (cleanup s) (intervals s)
              (next_interval s) (now s) (draws s)
  | SetSubtitlesEnabled b =>
      mkState (user s) b (isTranslationStopped s)
              (detectedLang s) (currentSubtitle s) (cleanup s) (intervals s)
              (next_interval s) (now s) (draws s)
  | ToggleStopped =>
      mkState (user s) (subtitlesEnabled s) (negb (isTranslationStopped s))
              (detectedLang s) (currentSubtitle s) (cleanup s) (intervals s)
              (next_interval s) (now s) (draws s)
  | SetDetectedLang l =>
      mkState (user s) (subtitlesEnabled s) (isTranslationStopped s)
              l (currentSubtitle s) (cleanup s) (intervals s)
              (next_interval s) (now s) (draws s)
  | Tick => tick s
  end.

(** An update, settled: the handler, the render of its state, then the
    effect. *)
Definition step (s : State) (ev : Event) : State := commit s (handle ev s).

(** The component is mounted (the effect runs once), then events arrive. *)
Definition run (evs : list Event) : State := foldl step (effect init) evs.

(** What holds once the effects of an update have run.  While the
    governing conjunction holds exactly one interval is live: the one the
    pending cleanup will clear, created for the current [t], due within one
    period; and the caption is what [t] gives as placeholder or one of its
    samples.  Otherwise no interval is live, no cleanup is pending and the
    caption is empty. *)
Definition settled (s : State) : Prop :=
  if active s then
    (∃ id when_due,
        intervals s = [(id, mkInterval when_due (t s))]
        ∧ cleanup s = Some id
        ∧ (id < next_interval s)%nat
        ∧ now s < when_due <= now s + 3000)
    ∧ (currentSubtitle s = translationActive_of (t s)
       ∨ ∃ key b i, t s = BundleObj key b
                    ∧ currentSubtitle s = sample_at (subtitleSamples b) i)
  else
    intervals s = [] ∧ cleanup s = None ∧ currentSubtitle s = Some "".

End Simulator.

End Subtitles.

(* ===================================================================== *)
(** * Authentication modal: [handleAuthAction] (AuthModal lines 26-67) *)
(* ===================================================================== *)

Module AuthModal.

Inductive AuthAction :=
| login
| register.

(** Calls into the identity provider. *)
Inductive ProviderCall :=
| createUserWithEmailAndPassword (email password : string)
| signInWithEmailAndPassword (email password : string).

(** How the awaited provider promise settles. *)
Inductive Outcome :=
| Resolves
| Rejects (code : string).

Record State := mkState {
  email : string;
  password : string;
  loading : bool;
  actionInProgress : option AuthAction;
  error : option string;
  (* the outside *)
  provider_calls : list ProviderCall;
  closed : bool;                 (* [onClose] was called *)
  console_errors : list string   (* codes logged as unhandled *)
}.

Definition init : State := mkState "" "" false None None [] false [].

Section Modal.
Context (t : Bundle).

(** [handleFirebaseError]: the message, and whether the error is logged. *)
Definition handleFirebaseError (code : string) : string * bool :=
  if decide (code = "auth/email-already-in-use") then (errorEmailInUse t, false)
  else if decide (code = "auth/invalid-email") then (errorInvalidEmail t, false)
  else if decide (code = "auth/wrong-password") then (errorInvalidCredential t, false)
  else if decide (code = "auth/user-not-found") then (errorInvalidCredential t, false)
  else if decide (code = "auth/invalid-credential") then (errorInvalidCredential t, false)
  else if decide (code = "auth/weak-password") then (errorWeakPassword t, false)
  else (errorUnexpected t, true).

Definition setError (e : option string) (s : State) : State :=
  mkState (email s) (password s) (loading s) (actionInProgress s) e
          (provider_calls s) (closed s) (console_errors s).

Definition setLoading (b : bool) (s : State) : State :=
  mkState (email s) (password s) b (actionInProgress s) (error s)
          (provider_calls s) (closed s) (console_errors s).

Definition setActionInProgress (a : option AuthAction) (s : State) : State :=
  mkState (email s) (password s) (loading s) a (error s)
          (provider_calls s) (closed s) (console_errors s).

Definition call_provider (c : ProviderCall) (s : State) : State :=
  mkState (email s) (password s) (loading s) (actionInProgress s) (error s)
          (provider_calls s ++ [c]) (closed s) (console_errors s).

Definition onClose (s : State) : State :=
  mkState (email s) (password s) (loading s) (actionInProgress s) (error s)
          (provider_calls s) true (console_errors s).

Definition console_error (code : string) (s : State) : State :=
  mkState (email s) (password s) (loading s) (actionInProgress s) (error s)
          (provider_calls s) (closed s) (console_errors s ++ [code]).

(** The [try] block with its [catch]; [outcome] settles the awaited call. *)
Definition try_auth (action : AuthAction) (outcome : Outcome) (s : State)
    : State :=
  let s1 :=
    match action with
    | register => call_provider (createUserWithEmailAndPassword (email s) (password s)) s
    | login => call_provider (signInWithEmailAndPassword (email s) (password s)) s
    end in
  match outcome with
  | Resolves => onClose s1
  | Rejects code =>
      let '(msg, logged) := handleFirebaseError code in
      setError (Some msg) (if logged then console_error code s1 else s1)
  end.

Definition handleAuthAction (action : AuthAction) (outcome : Outcome)
    (s : State) : State :=
  if negb (truthy (email s)) || negb (truthy (password s)) then
    setError (Some (errorFillFields t)) s
  else
    let s1 := setError None (setActionInProgress (Some action) (setLoading true s)) in
    let s2 := try_auth action outcome s1 in
    (* finally *)
    setActionInProgress None (setLoading false s2).

End Modal.

End AuthModal.

(* ===================================================================== *)
(** * Explicit language choice: [handleLanguageChange]
      (App.tsx lines 160-171) *)
(* ===================================================================== *)

Module Preferences.

(** What the handler reads and writes: the React state [detectedLang],
    the collection ['users'], the browser's local storage, and what the
    user gets to see of a failure. *)
Record State := mkState {
  detectedLang : string;
  db : gmap string (gmap string string);
  localStorage : gmap string string;
  console_errors : nat;          (* calls of [console.error] *)
  alerts : list string           (* messages passed to [alert] *)
}.

(** [handleLanguageChange(newLang)]; [set_rejects] tells whether the
    awaited durable write is rejected. *)
Definition handleLanguageChange (set_rejects : bool) (user : option User)
    (newLang : string) (s : State) : State :=
  let s1 := mkState newLang (db s)
                    (<[ "youvoix-lang" := newLang ]> (localStorage s))
                    (console_errors s) (alerts s) in
  match user with
  | Some u =>
      if set_rejects then
        mkState (detectedLang s1) (db s1) (localStorage s1)
                (S (console_errors s1))
                (alerts s1
                 ++ ["Could not save language preference. Please try again."])
      else
        mkState (detectedLang s1)
                (Resolver.set_merge (uid u) {[ "language" := newLang ]} (db s1))
                (localStorage s1) (console_errors s1) (alerts s1)
  | None => s1
  end.

(** The surroundings of a later resolution pass: it reads the local
    storage and the collection the handler left behind. *)
Definition env_of (get_rejects set_rejects : bool) (navigator_language : string)
    (ipapi : Resolver.FetchResult) (s : State) : Resolver.Env :=
  Resolver.mkEnv get_rejects set_rejects (localStorage s) navigator_language ipapi.

Definition world_of (s : State) : Resolver.World :=
  Resolver.start (detectedLang s) (db s).

End Preferences.

(* ===================================================================== *)
(** * More on the resolution pass: kinds of events *)
(* ===================================================================== *)

Module PassEvents.

Definition is_set_lang (e : Resolver.Event) : bool :=
  match e with Resolver.SetDetectedLang _ => true | _ => false end.

(** Accesses to the durable store. *)
Definition is_durable (e : Resolver.Event) : bool :=
  match e with
  | Resolver.DurableGet _ | Resolver.DurableSetMerge _ _ => true
  | _ => false
  end.

End PassEvents.

(* ===================================================================== *)
(** * Where a gesture leaves the floating control *)
(* ===================================================================== *)

Module Reposition.

(** The condition of line 195 for a move [m] of a gesture started at [e]. *)
Definition beyond (e m : App.MouseEvent) : bool :=
  (5 <? Z.abs (App.clientX m - App.clientX e))
  || (5 <? Z.abs (App.clientY m - App.clientY e)).

(** The inline style lines 197-200 write for the move [m]. *)
Definition dragged_to (b : App.Button) (e m : App.MouseEvent) : App.Style :=
  App.mkStyle (App.Px (App.offsetLeft b + (App.clientX m - App.clientX e)))
              (App.Px (App.offsetTop b + (App.clientY m - App.clientY e)))
              App.Auto App.Auto.

Definition is_auth (ev : App.Event) : bool :=
  match ev with App.AuthStateChanged _ => true | _ => false end.

End Reposition.

(* ===================================================================== *)
(** * The subtitle overlay as rendered (App.tsx lines 226-250) *)
(* ===================================================================== *)

Module Overlay.

(** The caption the overlay shows, if any:
    [{user && !isTranslationStopped && (... {subtitlesEnabled &&
    currentSubtitle && (<div>{currentSubtitle}</div>)})}]. *)
Definition displayed_caption (s : Subtitles.State) : option string :=
  if bool_decide (is_Some (Subtitles.user s))
     && negb (Subtitles.isTranslationStopped s)
  then
    match Subtitles.currentSubtitle s with
    | Some c =>
        if Subtitles.subtitlesEnabled s && truthy c then Some c else None
    | None => None
    end
  else None.

End Overlay.

(* ===================================================================== *)
(** * The content script: injection of the stylesheet loader and of the
      root container (entry point, lines 8-21) *)
(* ===================================================================== *)

Module Bootstrap.

(** The hosting document, reduced to the ids of the elements of its head
    and of its body, in document order. *)
Record Document := mkDocument {
  head : list string;
  body : list string
}.

(** [document.getElementById(id)] as a condition. *)
Definition getElementById (id : string) (d : Document) : bool :=
  bool_decide (id ∈ head d ++ body d).

(** One run of the content script: the CDN script is appended to the head
    unless an element with its id exists; the root container is created
    and appended to the body. *)
Definition content_script (d : Document) : Document :=
  let d1 :=
    if negb (getElementById "tailwind-cdn-script" d)
    then mkDocument (head d ++ ["tailwind-cdn-script"]) (body d)
    else d in
  mkDocument (head d1) (body d1 ++ ["voxly-chrome-extension-root"]).

Definition occurrences (id : string) (d : Document) : nat :=
  length (List.filter (String.eqb id) (head d ++ body d)).

End Bootstrap.

(* ===================================================================== *)
(** * Sample data *)
(* ===================================================================== *)

Module Samples.

Definition bundle (tag : string) : Bundle :=
  mkBundle ("active:" +:+ tag) [tag +:+ "-1"; tag +:+ "-2"; tag +:+ "-3"]
           "fill" "inuse" "bademail" "badcred" "weak" "unexpected".

(** A catalog with the four languages of the selector (lines 292-295). *)
Definition catalog : Translations :=
  mkTranslations (bundle "en")
    (list_to_map [("es", bundle "es"); ("fr", bundle "fr"); ("pt", bundle "pt")]).

Definition alice : User := mkUser "alice" (Some "alice@example.org").

End Samples.

(* ===================================================================== *)
(** * Properties of the preference resolver *)
(* ===================================================================== *)

Section ResolverProperties.
Import Resolver.
Context (tr : Translations) (env : Env).

Ltac run_pass :=
  unfold loadUserProfile, exec, loadUserProfile_body, detect_by_ip, doc_get,
    localStorage_getItem, doc_set_merge, setDetectedLang, emit, skip, return_,
    start, durable_hit, local_hit, locale_hit;
  unfold mbind, mret, Async_bind, Async_ret, bind, ret;
  cbn [snd fst trace db detectedLang].

Ltac pass_simpl :=
  cbn [snd fst trace db detectedLang fmap option_fmap option_map negb andb orb
       app List.filter is_fetch is_write length].

Ltac split_pass :=
  repeat (match goal with
   | |- context [get_rejects ?e] => destruct (get_rejects e) eqn:?
   | |- context [set_rejects ?e] => destruct (set_rejects e) eqn:?
   | |- context [match stored_language ?x with _ => _ end] =>
       destruct (stored_language x) eqn:?
   | |- context [match localStorage ?e !! ?k with _ => _ end] =>
       destruct (localStorage e !! k) eqn:?
   | |- context [supported ?t ?l] => destruct (supported t l) eqn:?
   | |- context [bool_decide (is_Some (?t !! ?k))] =>
       destruct (bool_decide (is_Some (t !! k))) eqn:?
   | |- context [ipapi ?e] => destruct (ipapi e) as [|[?|]] eqn:?
   | |- context [truthy ?l] => destruct (truthy l) eqn:?
   | |- context [langMap ?l] => destruct (langMap l) eqn:?
   end; pass_simpl).

Lemma supported_truthy l : supported tr l = true → truthy l = true.
Proof. unfold supported. by intros [? _]%andb_prop. Qed.

Lemma stored_language_some (fields : Doc) l :
  fields !! "language" = Some l → truthy l = true →
  stored_language (Some fields) = Some l.
Proof. intros Hl Ht. unfold stored_language. by rewrite Hl, Ht. Qed.

(** C1. Strict priority order.  For a supported code [L]: when the
    identity's durable record is read and holds [language = L], the pass
    sets the effective language to [L] and stops, whatever the local
    store, the locale and the geolocation service hold (they are not even
    consulted); for an absent identity with [L] in the local store, the
    pass sets [L] and stops, whatever the locale and the geolocation
    service hold. *)
Theorem C1_priority_order (lang0 : string) (store : Store) (L : string) :
  supported tr L = true →
  (∀ (u : User) (fields : Doc),
      get_rejects env = false →
      store !! uid u = Some fields →
      fields !! "language" = Some L →
      let w' := loadUserProfile tr env (Some u) (start lang0 store) in
      detectedLang w' = L
      ∧ trace w' = [DurableGet (uid u); SetDetectedLang L])
  ∧ (localStorage env !! "youvoix-lang" = Some L →
      let w' := loadUserProfile tr env None (start lang0 store) in
      detectedLang w' = L
      ∧ trace w' = [LocalStorageGet "youvoix-lang"; SetDetectedLang L]).
Proof.
  intros HL. split.
  - intros u fields Hget Hdoc Hlang. run_pass.
    rewrite Hget, Hdoc.
    rewrite (stored_language_some _ _ Hlang (supported_truthy _ HL)).
    done.
  - intros Hlocal. run_pass. rewrite Hlocal, HL. done.
Qed.

(** C5. The geolocation lookup is performed at most once per pass, and
    exactly when none of the synchronous signals (durable record, local
    store, locale subtag) resolves the language.  In particular, for an
    absent identity without a local-store entry and with a supported
    locale subtag, that subtag is chosen and no lookup is made.  When the
    lookup is made and fails, the failure is swallowed (a warning is
    logged, the pass goes on) and the resolved language is ["en"]. *)
Theorem C5_geolocation_last_resort (user : option User) (lang0 : string)
    (store : Store) :
  let w := start lang0 store in
  let w' := loadUserProfile tr env user w in
  let sync := durable_hit env user w || local_hit tr env || locale_hit tr env in
  length (List.filter is_fetch (trace w')) = (if sync then 0 else 1)%nat
  ∧ (user = None → localStorage env !! "youvoix-lang" = None →
     locale_hit tr env = true →
     detectedLang w' = primary_subtag (navigator_language env)
     ∧ List.filter is_fetch (trace w') = [])
  ∧ (sync = false → ipapi env = FetchRejects →
     detectedLang w' = "en"
     ∧ ConsoleWarn ∈ trace w'
     ∧ SetDetectedLang "en" ∈ trace w').
Proof.
  destruct user as [u|]; run_pass; split_pass;
    (split; [done | split; [intros; try done | intros; try done]]).
  all: try (split; [done | set_solver]).
Qed.

(** C10. When the durable read throws, the error is logged and the pass
    goes on instead of stopping: it reads the local store next and adopts
    a supported code found there; failing that it adopts the locale's
    primary subtag when the catalog has it; failing that it makes the
    geolocation lookup and adopts the language of the country, or ["en"]
    when the lookup fails or names no mapped country.  In each case the
    pass sets an effective language, the one a pass without identity ends
    with, and in the last two cases writes it back to the identity's
    record. *)
Theorem C10_durable_read_failure_falls_through (u : User) (lang0 : string)
    (store : Store) :
  get_rejects env = true →
  let w' := loadUserProfile tr env (Some u) (start lang0 store) in
  let w0 := loadUserProfile tr env None (start lang0 store) in
  let sub := primary_subtag (navigator_language env) in
  let by_country :=
    match ipapi env with
    | FetchJson (Some c) => default "en" (langMap (toLowerCase c))
    | _ => "en"
    end in
  (detectedLang w' = detectedLang w0
   ∧ SetDetectedLang (detectedLang w') ∈ trace w0
   ∧ ∃ write_back,
       trace w' = DurableGet (uid u) :: ConsoleError :: trace w0 ++ write_back)
  ∧ (∀ L, localStorage env !! "youvoix-lang" = Some L → supported tr L = true →
       detectedLang w' = L
       ∧ trace w' = [DurableGet (uid u); ConsoleError;
                     LocalStorageGet "youvoix-lang"; SetDetectedLang L]
       ∧ db w' = store)
  ∧ (local_hit tr env = false → locale_hit tr env = true →
       detectedLang w' = sub
       ∧ trace w' = [DurableGet (uid u); ConsoleError;
                     LocalStorageGet "youvoix-lang"; SetDetectedLang sub;
                     DurableSetMerge (uid u) {[ "language" := sub ]}])
  ∧ (local_hit tr env = false → locale_hit tr env = false →
       detectedLang w' = by_country
       ∧ trace w' = [DurableGet (uid u); ConsoleError;
                     LocalStorageGet "youvoix-lang";
                     Fetch "https://ipapi.co/json/"]
                    ++ match ipapi env with
                       | FetchRejects => [ConsoleWarn]
                       | FetchJson _ => []
                       end
                    ++ [SetDetectedLang by_country;
                        DurableSetMerge (uid u) {[ "language" := by_country ]}]).
Proof.
  intros Hget w' w0 sub by_country.
  split; [| split; [| split]].
  - subst w' w0. run_pass. rewrite Hget. split_pass.
    all: split; [done | split; [set_solver |]].
    all: eexists; cbn; try reflexivity.
    all: try (by instantiate (1 := [])).
  - intros L Hlocal HL. subst w'. run_pass. by rewrite Hget, Hlocal, HL.
  - subst w' sub. run_pass. rewrite Hget.
    destruct (localStorage env !! "youvoix-lang") as [l|];
      intros Hl Hloc; pass_simpl; rewrite ?Hl, Hloc; done.
  - subst w' by_country. run_pass. rewrite Hget.
    assert (∀ c, truthy c = false → langMap c = None) as Hempty.
    { intros c Hc. unfold truthy in Hc. apply bool_decide_eq_false_1 in Hc.
      destruct (decide (c = "")) as [-> |]; [reflexivity | done]. }
    destruct (localStorage env !! "youvoix-lang") as [l|];
      intros Hl Hloc; pass_simpl; rewrite ?Hl, Hloc;
      destruct (ipapi env) as [|[c|]]; pass_simpl; try done.
    all: destruct (truthy (toLowerCase c)) eqn:Hc;
      [destruct (langMap (toLowerCase c)); done
      | by rewrite (Hempty _ Hc)].
Qed.

(** C4 (amended). For a pass with an identity present whose language is
    auto-detected (neither the durable record nor the local store supplies
    it), the resolved code is written back to the identity's record, as
    the last action of the pass, with merge semantics: the record is
    created when missing, its [language] field becomes the resolved code,
    its other fields and the other records are left as they were. *)
Theorem C4_write_back_after_auto_detection (u : User) (lang0 : string)
    (store : Store) :
  durable_hit env (Some u) (start lang0 store) = false →
  local_hit tr env = false →
  let w' := loadUserProfile tr env (Some u) (start lang0 store) in
  let fields : Doc := {[ "language" := detectedLang w' ]} in
  last (trace w') = Some (DurableSetMerge (uid u) fields)
  ∧ List.filter is_write (trace w') = [DurableSetMerge (uid u) fields]
  ∧ db w' = (if set_rejects env then store else set_merge (uid u) fields store)
  ∧ (set_merge (uid u) fields store !! uid u) ≫= (λ d, d !! "language")
    = Some (detectedLang w')
  ∧ (∀ f, f ≠ "language" →
       (set_merge (uid u) fields store !! uid u) ≫= (λ d, d !! f)
       = (store !! uid u) ≫= (λ d, d !! f))
  ∧ (∀ id, id ≠ uid u → set_merge (uid u) fields store !! id = store !! id).
Proof.
  intros Hd Hl w' fields.
  assert (Hmerge :
    (set_merge (uid u) fields store !! uid u) ≫= (λ d, d !! "language")
      = Some (detectedLang w')
    ∧ (∀ f, f ≠ "language" →
         (set_merge (uid u) fields store !! uid u) ≫= (λ d, d !! f)
         = (store !! uid u) ≫= (λ d, d !! f))
    ∧ (∀ id, id ≠ uid u → set_merge (uid u) fields store !! id = store !! id)).
  { unfold set_merge, fields. rewrite lookup_insert_eq. cbn.
    split; [| split].
    - apply lookup_union_Some_l, lookup_singleton_eq.
    - intros f Hf. rewrite lookup_union_r by by apply lookup_singleton_ne.
      by destruct (store !! uid u).
    - intros id Hid. by rewrite lookup_insert_ne. }
  revert Hd Hl Hmerge. subst w' fields. run_pass. split_pass; intros Hd Hl Hmerge;
    try discriminate Hd; try discriminate Hl; done.
Qed.

End ResolverProperties.

(* ===================================================================== *)
(** * Properties of the panel coordinator and of the drag gesture *)
(* ===================================================================== *)

Section AppProperties.
Import App.

Ltac app_proj :=
  unfold setIsPanelOpen, setIsSettingsOpen, setIsAuthModalOpen, setLoading,
    setUser, set_timers, set_listeners, set_style in *;
  cbn [user loading isAuthModalOpen isPanelOpen isSettingsOpen
       inactivityTimerRef timeouts next_timer outside_listener hover_listeners
       style negb andb orb panel_contains button_contains] in *.

Lemma coherent_init : coherent init.
Proof.
  unfold coherent, timers_ok, init. app_proj.
  split; [split; [lia | split; [intros; discriminate |]] |].
  { intros id Hid. exfalso. set_solver. }
  split; [done|]. split; [done|]. intros; discriminate.
Qed.

(** Under the bookkeeping invariant, clearing the referenced timeout
    leaves nothing pending. *)
Lemma clear_inactivity_eq s :
  timers_ok s →
  clear_inactivity s = set_timers (inactivityTimerRef s) ∅ (next_timer s) s.
Proof.
  intros (_ & Hr & Ht). unfold clear_inactivity, clearTimeout.
  destruct s as [u ld am po so ref ts nx ol hl sty]; app_proj.
  assert (Hts : ts ∖ match ref with Some id => {[ id ]} | None => ∅ end = ∅).
  { apply set_eq. intros x. split; [|set_solver].
    intros [Hx Hne]%elem_of_difference. apply Ht in Hx. subst ref. set_solver. }
  destruct ref as [id|].
  - rewrite bool_decide_eq_true_2 by (specialize (Hr id eq_refl); lia).
    app_proj. by rewrite Hts.
  - f_equal. apply set_eq. intros x. split; [|set_solver].
    intros Hx. apply Ht in Hx. discriminate.
Qed.

Lemma resetInactivityTimer_eq s :
  timers_ok s →
  resetInactivityTimer s
  = set_timers (Some (next_timer s)) {[ next_timer s ]} (S (next_timer s)) s.
Proof.
  intros Hok. unfold resetInactivityTimer. rewrite clear_inactivity_eq by done.
  unfold arm_inactivity. destruct s; app_proj. by rewrite (left_id_L ∅ (∪)).
Qed.

Lemma timers_ok_fields u ld am po so ref ts nx ol hl sty u' ld' am' po' so' ol' hl' sty' :
  timers_ok (mkState u ld am po so ref ts nx ol hl sty) →
  timers_ok (mkState u' ld' am' po' so' ref ts nx ol' hl' sty').
Proof. done. Qed.

Lemma timers_ok_cleared u ld am po so ref ts nx ol hl sty u' ld' am' po' so' ol' hl' sty' :
  timers_ok (mkState u ld am po so ref ts nx ol hl sty) →
  timers_ok (mkState u' ld' am' po' so' ref ∅ nx ol' hl' sty').
Proof.
  intros (Hn & Hr & Ht). split; [done | split; [done |]].
  intros id Hid. exfalso. set_solver.
Qed.

Lemma timers_ok_armed u ld am po so ref ts nx ol hl sty u' ld' am' po' so' ol' hl' sty' :
  timers_ok (mkState u ld am po so ref ts nx ol hl sty) →
  timers_ok (mkState u' ld' am' po' so' (Some nx) {[ nx ]} (S nx) ol' hl' sty').
Proof.
  intros (Hn & Hr & Ht). app_proj. split; [done | split].
  - intros id [= <-]. cbn. lia.
  - intros id Hid. f_equal. set_solver.
Qed.

(** The effect of a change of [isPanelOpen], in closed form. *)
Lemma panel_effect_eq s :
  timers_ok s →
  panel_effect (panel_effect_cleanup s)
  = if isPanelOpen s
    then set_listeners true (panel_mounted s)
           (set_timers (Some (next_timer s)) {[ next_timer s ]}
                       (S (next_timer s)) s)
    else set_listeners false (hover_listeners s)
           (set_timers (inactivityTimerRef s) ∅ (next_timer s) s).
Proof.
  intros Hok. unfold panel_effect_cleanup.
  rewrite clear_inactivity_eq by (destruct s; done).
  unfold panel_effect. destruct s as [u ld am po so ref ts nx ol hl sty]; app_proj.
  destruct po.
  - rewrite resetInactivityTimer_eq by by eapply timers_ok_cleared. done.
  - rewrite clear_inactivity_eq by by eapply timers_ok_cleared. done.
Qed.

(** ** The gesture *)

Lemma drag_moves_fold (e : MouseEvent) (moves : list MouseEvent)
    (drag : DragSession) (st : Style) :
  startX drag = clientX e → startY drag = clientY e →
  let r := foldl (fun d m => onMouseMove m d) (drag, st) moves in
  hasMoved (fst r) = hasMoved drag || exceeds_threshold e moves.
Proof.
  revert drag st. induction moves as [|m moves IH]; intros drag st Hx Hy.
  - cbn. by rewrite orb_false_r.
  - cbn [foldl exceeds_threshold existsb]. unfold onMouseMove at 2.
    rewrite Hx, Hy.
    destruct ((5 <? Z.abs (clientX m - clientX e))
              || (5 <? Z.abs (clientY m - clientY e))) eqn:Hm.
    + rewrite IH by done. cbn. by rewrite orb_true_r.
    + rewrite IH by done. done.
Qed.

Lemma handleDrag_actions (b : Button) (u : option User) (e : MouseEvent)
    (moves : list MouseEvent) (st : Style) :
  fst (handleDrag (Some b) u e moves st)
  = if exceeds_threshold e moves then []
    else [match u with Some _ => TogglePanel | None => OpenAuthPrompt end].
Proof.
  unfold handleDrag.
  pose proof (drag_moves_fold e moves
                (mkDrag false (clientX e) (clientY e) (offsetLeft b) (offsetTop b))
                st eq_refl eq_refl) as H.
  cbn zeta in H.
  destruct (foldl _ _ moves) as [drag st']. cbn in H |- *.
  unfold onMouseUp. rewrite H. by destruct (exceeds_threshold e moves), u.
Qed.

(** C6. For every pointer-down/move/up sequence on the floating control:
    when some move exceeded the 5 px threshold (the session was marked
    moved), mouse-up fires no action, so the panel is not toggled and the
    auth prompt is not opened; otherwise it fires exactly one action, the
    panel toggle when an identity is present and the opening of the auth
    prompt when it is absent. *)
Theorem C6_drag_or_click (b : Button) (u : option User) (e : MouseEvent)
    (moves : list MouseEvent) (s : State) :
  let acts := fst (handleDrag (Some b) u e moves (style s)) in
  acts = (if exceeds_threshold e moves then []
          else [if bool_decide (is_Some u) then TogglePanel else OpenAuthPrompt])
  ∧ (let s' := foldr perform s acts in
     if exceeds_threshold e moves then
       isPanelOpen s' = isPanelOpen s ∧ isAuthModalOpen s' = isAuthModalOpen s
     else if bool_decide (is_Some u) then
       isPanelOpen s' = negb (isPanelOpen s)
       ∧ isAuthModalOpen s' = isAuthModalOpen s
     else
       isPanelOpen s' = isPanelOpen s ∧ isAuthModalOpen s' = true).
Proof.
  cbn zeta. rewrite handleDrag_actions.
  destruct (exceeds_threshold e moves), u as [x|]; cbn; done.
Qed.

(** ** Reachable states *)

Lemma timers_ok_handle s ev : coherent s → timers_ok (handle ev s).
Proof.
  intros (Hok & Hc & Ho & Hh).
  destruct ev as [cu|tg|id| | | |b e moves]; unfold handle.
  - unfold onAuthStateChanged. destruct s, cu; app_proj; by eapply timers_ok_fields.
  - unfold handleOutsideClick.
    destruct (outside_listener s); [|done].
    match goal with |- context [if ?c then _ else _] => destruct c end; [|done].
    destruct s; app_proj. by eapply timers_ok_fields.
  - case_bool_decide as Hin; [|done].
    unfold inactivity_expired. destruct s as [u ld am po so ref ts nx ol hl sty].
    app_proj. destruct Hok as (Hn & Hr & Ht). split; [done | split; [done |]].
    app_proj. intros x [Hx _]%elem_of_difference. by apply Ht.
  - destruct (hover_listeners s); [|done].
    rewrite clear_inactivity_eq by done. destruct s. by eapply timers_ok_cleared.
  - destruct (hover_listeners s); [|done].
    rewrite resetInactivityTimer_eq by done. destruct s. by eapply timers_ok_armed.
  - destruct (panel_mounted s); [|done]. destruct s. by eapply timers_ok_fields.
  - destruct (control_mounted s); [|done].
    pose proof (handleDrag_actions b (user s) e moves (style s)) as Ha.
    destruct (handleDrag _ _ _ _ _) as [acts st']. cbn in Ha. subst acts.
    destruct (exceeds_threshold e moves), (user s), s; cbn; app_proj;
      by eapply timers_ok_fields.
Qed.

Lemma commit_eq prev s :
  timers_ok s →
  commit prev s
  = let s1 :=
      if bool_decide (isPanelOpen prev = isPanelOpen s) then s
      else if isPanelOpen s
      then set_listeners true (panel_mounted s)
             (set_timers (Some (next_timer s)) {[ next_timer s ]}
                         (S (next_timer s)) s)
      else set_listeners false (hover_listeners s)
             (set_timers (inactivityTimerRef s) ∅ (next_timer s) s) in
    set_listeners (outside_listener s1)
                  (hover_listeners s1 && panel_mounted s1) s1.
Proof. intros Hok. unfold commit. by rewrite panel_effect_eq. Qed.

Ltac same := split; [done || congruence | split; [lia | auto]].

Lemma handle_keeps s ev :
  coherent s →
  outside_listener (handle ev s) = outside_listener s
  ∧ (next_timer s ≤ next_timer (handle ev s))%nat
  ∧ (isPanelOpen s = false → timeouts (handle ev s) = ∅).
Proof.
  intros (Hok & Hc & Ho & Hh).

  destruct ev as [cu|tg|id| | | |b e moves]; unfold handle.
  - unfold onAuthStateChanged. destruct s, cu; app_proj; same.
  - unfold handleOutsideClick.
    destruct (outside_listener s) eqn:Hol; [|same].
    match goal with |- context [if ?c then _ else _] => destruct c end; [|same].
    destruct s; app_proj. same.
  - case_bool_decide as Hin; [|same].
    unfold inactivity_expired. destruct s as [u ld am po so ref ts nx ol hl sty].
    app_proj. split; [done | split; [done |]]. intros Hpo. exfalso.
    rewrite (Hc Hpo) in Hin. exact (not_elem_of_empty (C := gset nat) id Hin).
  - destruct (hover_listeners s); [|same].
    rewrite clear_inactivity_eq by done. destruct s. app_proj. same.
  - destruct (hover_listeners s) eqn:Hhl; [|same].
    rewrite resetInactivityTimer_eq by done.
    specialize (Hh eq_refl). unfold panel_mounted in Hh.
    destruct s as [u ld am po so ref ts nx ol hl sty]; app_proj.
    split; [done | split; [lia |]]. intros ->.
    by rewrite andb_false_r in Hh.
  - destruct (panel_mounted s); [|same]. destruct s. app_proj. same.
  - destruct (control_mounted s); [|same].
    pose proof (handleDrag_actions b (user s) e moves (style s)) as Ha.
    destruct (handleDrag _ _ _ _ _) as [acts st']. cbn in Ha. subst acts.
    destruct (exceeds_threshold e moves), (user s), s; cbn; app_proj; same.
Qed.

Lemma coherent_step s ev : coherent s → coherent (step s ev).
Proof.
  intros Hs. pose proof (timers_ok_handle s ev Hs) as Hok.
  destruct (handle_keeps s ev Hs) as (Hol & _ & Hts).
  destruct Hs as (_ & Hc & Ho & Hh).
  unfold step. rewrite commit_eq by done. cbn zeta.
  destruct (handle ev s) as [u ld am po so ref ts nx ol hl sty].
  app_proj. subst ol.
  case_bool_decide as Hsame.
  - rewrite <- Hsame in *. unfold coherent, panel_mounted. app_proj.
    split; [by eapply timers_ok_fields |].
    split; [intros Hpo; by apply Hts |].
    split; [done |]. by intros [_ ?]%andb_prop.
  - destruct po; unfold coherent, panel_mounted; app_proj.
    + split; [by eapply timers_ok_armed |].
      split; [done |]. split; [done |]. by intros [_ ?]%andb_prop.
    + split; [by eapply timers_ok_cleared |].
      split; [done |]. split; [|by intros [_ ?]%andb_prop].
      destruct (isPanelOpen s); done.
Qed.

Lemma coherent_foldl s evs : coherent s → coherent (foldl step s evs).
Proof.
  revert s. induction evs as [|ev evs IH]; intros s Hs; [done |].
  cbn [foldl]. by apply IH, coherent_step.
Qed.

Lemma coherent_run evs : coherent (run evs).
Proof. apply coherent_foldl, coherent_init. Qed.

Lemma pending_at_most_one s : timers_ok s → (size (timeouts s) ≤ 1)%nat.
Proof.
  intros (_ & _ & Ht). destruct (inactivityTimerRef s) as [id|] eqn:Href.
  - rewrite <- (size_singleton (C := gset nat) id). apply subseteq_size.
    intros x Hx. apply Ht in Hx. set_solver.
  - assert (timeouts s = ∅) as ->.
    { apply set_eq. intros x. split; [|set_solver]. intros Hx.
      apply Ht in Hx. discriminate. }
    rewrite size_empty. lia.
Qed.

(** C3 (amended). In every reachable state: an outside click and the
    expiry of the inactivity timer close the panel ([isPanelOpen] becomes
    false) and leave [isSettingsOpen] as it was; a present-to-absent
    identity transition resets both flags to false; and the settings
    section is mounted only while the panel is mounted. *)
Theorem C3_close_keeps_settings_flag (evs : list Event) (t : Target) (id : nat) :
  let s := run evs in
  isSettingsOpen (step s (DocumentMouseDown t)) = isSettingsOpen s
  ∧ (panel_mounted s = true →
     isPanelOpen (step s (DocumentMouseDown Elsewhere)) = false)
  ∧ (id ∈ timeouts s →
     isPanelOpen (step s (TimeoutFires id)) = false
     ∧ isSettingsOpen (step s (TimeoutFires id)) = isSettingsOpen s)
  ∧ (isPanelOpen (step s (AuthStateChanged None)) = false
     ∧ isSettingsOpen (step s (AuthStateChanged None)) = false)
  ∧ (settings_mounted s = true → panel_mounted s = true).
Proof.
  intros s. pose proof (coherent_run evs) as Hs. fold s in Hs.
  assert (Hflags : ∀ ev,
    isPanelOpen (step s ev) = isPanelOpen (handle ev s)
    ∧ isSettingsOpen (step s ev) = isSettingsOpen (handle ev s)).
  { intros ev. unfold step.
    rewrite commit_eq by by apply timers_ok_handle. cbn zeta.
    destruct (handle ev s) as [u ld am po so ref ts nx ol hl sty]. app_proj.
    case_bool_decide; [done |]. by destruct po. }
  destruct Hs as (Hok & Hc & Ho & Hh).
  split; [| split; [| split; [| split]]].
  - destruct (Hflags (DocumentMouseDown t)) as [_ ->].
    unfold handle, handleOutsideClick.
    destruct (outside_listener s); [|done].
    match goal with |- context [if ?c then _ else _] => destruct c end; [|done].
    by destruct s.
  - intros Hm. destruct (Hflags (DocumentMouseDown Elsewhere)) as [-> _].
    unfold handle, handleOutsideClick.
    assert (isPanelOpen s = true) as Hpo.
    { unfold panel_mounted in Hm. by destruct (loading s), (isPanelOpen s). }
    rewrite Ho, Hpo, Hm. unfold control_mounted, panel_mounted in *.
    destruct (loading s); [done |]. by destruct s.
  - intros Hin. destruct (Hflags (TimeoutFires id)) as [-> ->].
    unfold handle. rewrite bool_decide_eq_true_2 by done. by destruct s.
  - destruct (Hflags (AuthStateChanged None)) as [-> ->]. by destruct s.
  - unfold settings_mounted. by intros [? _]%andb_prop.
Qed.

(** C8. In every reachable state at most one inactivity timeout is
    pending.  Re-arming cancels what was pending before it schedules: after
    [resetInactivityTimer] the pending set is the one new timeout, which
    was not pending before.  This holds for both re-arming events: a step
    that opens the panel and the pointer leaving the panel leave exactly
    one pending timeout.  A step that ends with the panel closed leaves
    none. *)
Theorem C8_single_inactivity_timer (evs : list Event) :
  let s := run evs in
  (size (timeouts s) ≤ 1)%nat
  ∧ (timeouts (resetInactivityTimer s) = {[ next_timer s ]}
     ∧ inactivityTimerRef (resetInactivityTimer s) = Some (next_timer s)
     ∧ next_timer s ∉ timeouts s)
  ∧ (∀ ev, isPanelOpen s = false → isPanelOpen (step s ev) = true →
       size (timeouts (step s ev)) = 1%nat)
  ∧ (hover_listeners s = true →
       timeouts (step s PanelMouseLeave) = {[ next_timer s ]})
  ∧ (∀ ev, isPanelOpen (step s ev) = false → timeouts (step s ev) = ∅).
Proof.
  intros s. pose proof (coherent_run evs) as Hs. fold s in Hs.
  split; [| split; [| split; [| split]]].
  - apply pending_at_most_one, Hs.
  - destruct Hs as ((Hn & Hr & Ht) & _).
    rewrite resetInactivityTimer_eq by done.
    destruct s as [u ld am po so ref ts nx ol hl sty] eqn:Es. app_proj.
    split; [done | split; [done |]].
    intros Hin. apply Ht in Hin. apply Hr in Hin. lia.
  - intros ev Hclosed Hopen. revert Hopen. unfold step.
    rewrite commit_eq by by apply timers_ok_handle. cbn zeta.
    destruct (handle ev s) as [u ld am po so ref ts nx ol hl sty]. app_proj.
    rewrite Hclosed. case_bool_decide as Hsame.
    + app_proj. congruence.
    + destruct po; app_proj; [|done]. intros _. apply size_singleton.
  - intros Hhl. unfold step, handle. rewrite Hhl.
    rewrite commit_eq; rewrite resetInactivityTimer_eq; try apply Hs.
    + destruct s as [u ld am po so ref ts nx ol hl sty] eqn:Es. app_proj.
      rewrite bool_decide_eq_true_2 by done. done.
    + destruct Hs as (Hok & _). destruct s. by eapply timers_ok_armed.
  - intros ev. pose proof (coherent_step s ev Hs) as (_ & Hc & _). exact Hc.
Qed.

End AppProperties.

(* ===================================================================== *)
(** * Properties of the subtitle simulator *)
(* ===================================================================== *)

Section SubtitlesProperties.
Import Subtitles.

(** ** The binary64 product *)

Lemma round_shift_near (m s : Z) :
  0 <= m → 1 <= s →
  round_shift m s * 2 ^ s - 2 ^ (s - 1) <= m
  ∧ m <= round_shift m s * 2 ^ s + 2 ^ (s - 1).
Proof.
  intros Hm Hs. unfold round_shift.
  rewrite (proj2 (Z.leb_gt s 0)) by lia.
  assert (2 ^ s = 2 * 2 ^ (s - 1)) as E.
  { rewrite <- Z.pow_succ_r by lia. f_equal. lia. }
  assert (0 < 2 ^ (s - 1)) as Hp by (apply Z.pow_pos_nonneg; lia).
  pose proof (Z.div_mod m (2 ^ s)) as Hdm.
  pose proof (Z.mod_pos_bound m (2 ^ s)) as Hb.
  set (q := m / 2 ^ s) in *. set (rest := m mod 2 ^ s) in *.
  rewrite E in *. set (P := 2 ^ (s - 1)) in *.
  destruct (Z.ltb_spec rest P); [nia |].
  destruct (Z.ltb_spec P rest); [nia |].
  destruct (Z.even q); nia.
Qed.

Lemma significand_bits (m : Z) :
  0 <= m →
  let s := Z.max 0 (Z.log2 m + 1 - 53) in
  0 <= s ∧ (1 <= s → 2 ^ (52 + s) <= m ∧ m < 2 ^ (53 + s)).
Proof.
  intros Hm s. split; [lia |]. intros Hs.
  assert (0 < m) as Hpos.
  { destruct (Z.eq_dec m 0) as [-> |]; [| lia]. cbn in s. lia. }
  destruct (Z.log2_spec m Hpos) as [Hlo Hhi].
  replace (52 + s) with (Z.log2 m) by lia.
  replace (53 + s) with (Z.succ (Z.log2 m)) by lia. done.
Qed.

(** The floor of the rounded product is at least [i] when the exact
    product is. *)
Lemma floor_of_product_low (m E i : Z) :
  0 <= m → 0 <= i → Z.max 0 (Z.log2 m + 1 - 53) <= E →
  i * 2 ^ E <= m →
  i <= floor_of_product m (- E).
Proof.
  intros Hm Hi HE Hle. unfold floor_of_product.
  destruct (significand_bits m Hm) as [Hs0 Hbits].
  set (s := Z.max 0 (Z.log2 m + 1 - 53)) in *.
  set (R := round_shift m s).
  assert (0 < 2 ^ (E - s)) as HD by (apply Z.pow_pos_nonneg; lia).
  assert (2 ^ E = 2 ^ (E - s) * 2 ^ s) as Esplit.
  { rewrite <- Z.pow_add_r by lia. f_equal. lia. }
  assert (i * 2 ^ (E - s) <= R) as HR.
  { destruct (Z.eq_dec s 0) as [Hz | Hnz].
    - subst R. unfold round_shift. rewrite Hz in *. cbn [Z.leb Z.compare].
      rewrite Z.sub_0_r in *. change (2 ^ 0) with 1 in Esplit. lia.
    - destruct (round_shift_near m s Hm) as [_ Hup]; [lia |]. fold R in Hup.
      assert (2 ^ s = 2 * 2 ^ (s - 1)) as E2.
      { rewrite <- Z.pow_succ_r by lia. f_equal. lia. }
      assert (0 < 2 ^ (s - 1)) as Hp by (apply Z.pow_pos_nonneg; lia).
      rewrite Esplit in Hle. rewrite E2 in *.
      set (P := 2 ^ (s - 1)) in *. set (D := 2 ^ (E - s)) in *. nia. }
  destruct (Z.leb_spec 0 (- E + s)) as [Hnn | Hneg].
  - assert (E - s = 0) as Ez by lia. rewrite Ez in *.
    replace (- E + s) with 0 by lia. change (2 ^ 0) with 1 in *. lia.
  - replace (- (- E + s)) with (E - s) by lia.
    apply Z.div_le_lower_bound; lia.
Qed.

(** The floor of the rounded product is below [i] when the exact product
    is at most [i * (1 - 2^-53)]. *)
Lemma floor_of_product_high (m E i : Z) :
  0 <= m → 1 <= i → Z.max 0 (Z.log2 m + 1 - 53) <= E →
  m * 2 ^ 53 <= i * 2 ^ E * (2 ^ 53 - 1) →
  floor_of_product m (- E) < i.
Proof.
  intros Hm Hi HE Hle. unfold floor_of_product.
  destruct (significand_bits m Hm) as [Hs0 Hbits].
  set (s := Z.max 0 (Z.log2 m + 1 - 53)) in *.
  set (R := round_shift m s).
  assert (0 < 2 ^ (E - s)) as HD by (apply Z.pow_pos_nonneg; lia).
  assert (2 ^ E = 2 ^ (E - s) * 2 ^ s) as Esplit.
  { rewrite <- Z.pow_add_r by lia. f_equal. lia. }
  assert (0 < 2 ^ 53) as H53 by done.
  assert (R < i * 2 ^ (E - s)) as HR.
  { destruct (Z.eq_dec s 0) as [Hz | Hnz].
    - subst R. unfold round_shift. rewrite Hz in *. cbn [Z.leb Z.compare].
      rewrite Z.sub_0_r in *. clear Esplit.
      set (D := 2 ^ E) in *. set (T := 2 ^ 53) in *. nia.
    - destruct (round_shift_near m s Hm) as [Hdown _]; [lia |]. fold R in Hdown.
      destruct Hbits as [Hbig _]; [lia |].
      assert (2 ^ s = 2 * 2 ^ (s - 1)) as E2.
      { rewrite <- Z.pow_succ_r by lia. f_equal. lia. }
      assert (2 ^ (52 + s) = 2 ^ 52 * (2 * 2 ^ (s - 1))) as E3.
      { rewrite <- E2, <- Z.pow_add_r by lia. done. }
      assert (0 < 2 ^ (s - 1)) as Hp by (apply Z.pow_pos_nonneg; lia).
      rewrite Esplit in Hle. rewrite E2 in *. rewrite E3 in Hbig.
      change (2 ^ 53) with (2 * 2 ^ 52) in *.
      set (P := 2 ^ (s - 1)) in *. set (D := 2 ^ (E - s)) in *.
      set (T := 2 ^ 52) in *. assert (0 < T) by done.
      destruct (Z.lt_ge_cases R (i * D)) as [| Hge]; [done | exfalso].
      (* the rounded significand reaches [i * D]: then [i * D <= 2^52],
         but the significand has 53 bits *)
      assert (i * D <= T) as Hsmall by nia.
      nia. }
  destruct (Z.leb_spec 0 (- E + s)) as [Hnn | Hneg].
  - assert (E - s = 0) as Ez by lia. rewrite Ez in *.
    replace (- E + s) with 0 by lia. change (2 ^ 0) with 1 in *. lia.
  - replace (- (- E + s)) with (E - s) by lia.
    apply Z.div_lt_upper_bound; lia.
Qed.

Lemma product_shift_fits (r : Double) (n : nat) :
  in_unit_interval r → Z.of_nat n < 2 ^ 53 →
  0 <= mant r * Z.of_nat n
  ∧ Z.max 0 (Z.log2 (mant r * Z.of_nat n) + 1 - 53) <= - expo r.
Proof.
  intros [[Hm0 Hm] [_ He]] Hn. split; [nia |].
  destruct (Z.eq_dec (mant r * Z.of_nat n) 0) as [-> | Hnz]; [cbn; lia |].
  assert (Z.log2 (mant r * Z.of_nat n) < 106); [| lia].
  apply Z.log2_lt_pow2; [nia |].
  change (2 ^ 106) with (2 ^ 53 * 2 ^ 53). nia.
Qed.

(** The draws that select an index, in integers: with [r = m * 2^-E], the
    index is at least [i] when [i <= r * n], and below [i] when
    [r * n <= i * (1 - 2^-53)]. *)
Lemma randomIndex_low (r : Double) (n : nat) (i : Z) :
  in_unit_interval r → Z.of_nat n < 2 ^ 53 → 0 <= i →
  i * 2 ^ (- expo r) <= mant r * Z.of_nat n →
  i <= randomIndex r n.
Proof.
  intros Hr Hn Hi Hle. destruct (product_shift_fits r n Hr Hn) as [HM Hs].
  unfold randomIndex. rewrite <- (Z.opp_involutive (expo r)).
  by apply floor_of_product_low.
Qed.

Lemma randomIndex_high (r : Double) (n : nat) (i : Z) :
  in_unit_interval r → Z.of_nat n < 2 ^ 53 → 1 <= i →
  mant r * Z.of_nat n * 2 ^ 53 <= i * 2 ^ (- expo r) * (2 ^ 53 - 1) →
  randomIndex r n < i.
Proof.
  intros Hr Hn Hi Hle. destruct (product_shift_fits r n Hr Hn) as [HM Hs].
  unfold randomIndex. rewrite <- (Z.opp_involutive (expo r)).
  by apply floor_of_product_high.
Qed.

Lemma randomIndex_range (r : Double) (n : nat) :
  in_unit_interval r → 0 < Z.of_nat n < 2 ^ 53 →
  0 <= randomIndex r n < Z.of_nat n.
Proof.
  intros Hr [Hn0 Hn]. split.
  - apply randomIndex_low; try done. destruct Hr as [[? ?] _]. nia.
  - apply randomIndex_high; try done; [lia |].
    destruct Hr as [[Hm0 Hm] [_ He]].
    assert (2 ^ 53 <= 2 ^ (- expo r)) by (apply Z.pow_le_mono_r; lia).
    set (T := 2 ^ 53) in *. set (D := 2 ^ (- expo r)) in *.
    assert (0 < T) by done. nia.
Qed.

(** The same in terms of the numbers the draws stand for. *)
Lemma value_times_ge (r : Double) (n : nat) (i : Z) :
  in_unit_interval r →
  (inject_Z i <= value r * inject_Z (Z.of_nat n))%Q
  ↔ i * 2 ^ (- expo r) <= mant r * Z.of_nat n.
Proof.
  intros [_ [_ He]]. unfold value.
  rewrite (proj2 (Z.leb_gt 0 (expo r))) by lia.
  assert (0 < 2 ^ (- expo r)) as Hp by (apply Z.pow_pos_nonneg; lia).
  unfold Qle, Qmult, inject_Z. cbn [Qnum Qden].
  rewrite Pos2Z.inj_mul, Z2Pos.id by done. lia.
Qed.

Lemma value_times_le_below (r : Double) (n : nat) (i : Z) :
  in_unit_interval r →
  (value r * inject_Z (Z.of_nat n) <= inject_Z i * below_one)%Q
  ↔ mant r * Z.of_nat n * 2 ^ 53 <= i * 2 ^ (- expo r) * (2 ^ 53 - 1).
Proof.
  intros [_ [_ He]]. unfold value, below_one.
  rewrite (proj2 (Z.leb_gt 0 (expo r))) by lia.
  assert (0 < 2 ^ (- expo r)) as Hp by (apply Z.pow_pos_nonneg; lia).
  unfold Qle, Qmult, inject_Z. cbn [Qnum Qden].
  rewrite !Pos2Z.inj_mul, !Z2Pos.id by done. lia.
Qed.

Lemma value_times_ge_below (r : Double) (n : nat) (i : Z) :
  in_unit_interval r →
  (inject_Z i * below_one <= value r * inject_Z (Z.of_nat n))%Q
  ↔ i * 2 ^ (- expo r) * (2 ^ 53 - 1) <= mant r * Z.of_nat n * 2 ^ 53.
Proof.
  intros [_ [_ He]]. unfold value, below_one.
  rewrite (proj2 (Z.leb_gt 0 (expo r))) by lia.
  assert (0 < 2 ^ (- expo r)) as Hp by (apply Z.pow_pos_nonneg; lia).
  unfold Qle, Qmult, inject_Z. cbn [Qnum Qden].
  rewrite !Pos2Z.inj_mul, !Z2Pos.id by done. lia.
Qed.

(** How the index depends on the draw.  For a draw [r] in [0, 1) and an
    array of [n] entries the index is within the array.  Index [i] is
    selected by every draw with [i <= r * n <= (i + 1) * (1 - 2^-53)] and
    only by draws with [i * (1 - 2^-53) <= r * n < i + 1]: the draws
    selecting an entry form the interval [[i/n, (i+1)/n)] up to the
    rounding of one binary64 product at its ends. *)
Lemma random_selection (r : Double) (n : nat) (i : Z) :
  in_unit_interval r → 0 < Z.of_nat n < 2 ^ 53 →
  0 <= randomIndex r n < Z.of_nat n
  ∧ (randomIndex r n = i →
     (inject_Z i * below_one <= value r * inject_Z (Z.of_nat n))%Q
     ∧ (value r * inject_Z (Z.of_nat n) < inject_Z (i + 1))%Q)
  ∧ (0 <= i →
     (inject_Z i <= value r * inject_Z (Z.of_nat n))%Q →
     (value r * inject_Z (Z.of_nat n) <= inject_Z (i + 1) * below_one)%Q →
     randomIndex r n = i).
Proof.
  intros Hr Hn. pose proof (randomIndex_range r n Hr Hn) as Hrange.
  split; [done |]. split.
  - intros <-. split.
    + rewrite value_times_ge_below by done.
      destruct (Z.eq_dec (randomIndex r n) 0) as [-> | Hpos].
      * destruct Hr as [[? ?] _]. nia.
      * pose proof (randomIndex_high r n (randomIndex r n) Hr) as H. lia.
    + apply Qnot_le_lt. rewrite value_times_ge by done. intros Hle.
      pose proof (randomIndex_low r n (randomIndex r n + 1) Hr) as H.
      lia.
  - intros Hi Hlo Hhi.
    rewrite value_times_ge in Hlo by done.
    rewrite value_times_le_below in Hhi by done.
    pose proof (randomIndex_low r n i Hr) as H1.
    pose proof (randomIndex_high r n (i + 1) Hr) as H2. lia.
Qed.

End SubtitlesProperties.

(** ** The simulator *)

Section Simulator.
Import Subtitles.
Context (translations : Translations) (random : nat → Double).

Ltac sim_fields :=
  unfold setCurrentSubtitle, set_timers in *;
  cbn [user subtitlesEnabled isTranslationStopped detectedLang currentSubtitle
       cleanup intervals next_interval now draws due closure_t fst snd] in *.

Lemma same_deps_fields a b :
  same_deps translations a b = true →
  user a = user b ∧ subtitlesEnabled a = subtitlesEnabled b
  ∧ isTranslationStopped a = isTranslationStopped b
  ∧ t translations a = t translations b.
Proof.
  unfold same_deps. intros H.
  repeat (apply andb_prop in H as [H ?%bool_decide_eq_true_1]).
  apply bool_decide_eq_true_1 in H. done.
Qed.

Lemma active_iff s :
  active s = true
  ↔ is_Some (user s) ∧ subtitlesEnabled s = true
    ∧ isTranslationStopped s = false.
Proof.
  unfold active. rewrite !andb_true_iff, bool_decide_eq_true, negb_true_iff.
  tauto.
Qed.

(** The timers as a handler finds and leaves them: either nothing is live
    and no cleanup is pending, or the one live interval is the one the
    pending cleanup clears. *)
Lemma settled_timers s :
  settled translations s →
  (cleanup s = None ∧ intervals s = [])
  ∨ (∃ id iv, cleanup s = Some id ∧ intervals s = [(id, iv)]).
Proof.
  unfold settled. destruct (active s).
  - intros [(id & d & Hi & Hc & _) _]. right. by exists id, (mkInterval d (t translations s)).
  - intros (Hi & Hc & _). by left.
Qed.

Lemma clearInterval_only id iv : clearInterval id [(id, iv)] = [].
Proof. unfold clearInterval. cbn. by rewrite Nat.eqb_refl. Qed.

(** The cleanup followed by the body, in closed form. *)
Lemma effect_after_cleanup h :
  (cleanup h = None ∧ intervals h = [])
  ∨ (∃ id iv, cleanup h = Some id ∧ intervals h = [(id, iv)]) →
  effect translations (effect_cleanup h)
  = if active h then
      mkState (user h) (subtitlesEnabled h) (isTranslationStopped h)
              (detectedLang h) (translationActive_of (t translations h))
              (Some (next_interval h))
              [(next_interval h,
                mkInterval (now h + 3000) (t translations h))]
              (S (next_interval h)) (now h) (draws h)
    else
      mkState (user h) (subtitlesEnabled h) (isTranslationStopped h)
              (detectedLang h) (Some "") None [] (next_interval h)
              (now h) (draws h).
Proof.
  destruct h as [u se st dl cs cl ivs nx nw dr]. sim_fields.
  intros [[-> ->] | (id & iv & -> & ->)];
    unfold effect, effect_cleanup, active, t; sim_fields;
    rewrite ?clearInterval_only;
    by destruct (bool_decide (is_Some u) && se && negb st).
Qed.

Lemma settled_effect h :
  (cleanup h = None ∧ intervals h = [])
  ∨ (∃ id iv, cleanup h = Some id ∧ intervals h = [(id, iv)]) →
  settled translations (effect translations (effect_cleanup h)).
Proof.
  intros Hh. rewrite effect_after_cleanup by done.
  unfold settled, active, t.
  destruct h as [u se st dl cs cl ivs nx nw dr]. sim_fields.
  destruct (bool_decide (is_Some u) && se && negb st) eqn:Hact; sim_fields;
    rewrite Hact; [| done].
  split; [| by left]. exists nx, (nw + 3000). repeat split; try done; lia.
Qed.

Lemma settled_mount : settled translations (effect translations init).
Proof. by cbn. Qed.

Lemma settled_transfer a b :
  user a = user b → subtitlesEnabled a = subtitlesEnabled b →
  isTranslationStopped a = isTranslationStopped b →
  t translations a = t translations b →
  currentSubtitle a = currentSubtitle b → cleanup a = cleanup b →
  intervals a = intervals b → next_interval a = next_interval b →
  now a = now b →
  settled translations a → settled translations b.
Proof.
  unfold settled, active. intros <- <- <- <- <- <- <- <- <-. done.
Qed.

(** The tick of a settled state, in closed form. *)
Lemma tick_settled s :
  settled translations s →
  tick random s
  = match intervals s with
    | [(id, iv)] =>
        if now s + 1 =? due iv then
          match closure_t iv with
          | BundleObj _ b =>
              mkState (user s) (subtitlesEnabled s) (isTranslationStopped s)
                (detectedLang s)
                (sample_at (subtitleSamples b)
                   (randomIndex (random (draws s)) (length (subtitleSamples b))))
                (cleanup s) [(id, mkInterval (due iv + 3000) (closure_t iv))]
                (next_interval s) (now s + 1) (S (draws s))
          | InheritedObj _ =>
              mkState (user s) (subtitlesEnabled s) (isTranslationStopped s)
                (detectedLang s) (currentSubtitle s)
                (cleanup s) [(id, mkInterval (due iv + 3000) (closure_t iv))]
                (next_interval s) (now s + 1) (S (draws s))
          end
        else
          mkState (user s) (subtitlesEnabled s) (isTranslationStopped s)
            (detectedLang s) (currentSubtitle s) (cleanup s) (intervals s)
            (next_interval s) (now s + 1) (draws s)
    | _ =>
        mkState (user s) (subtitlesEnabled s) (isTranslationStopped s)
          (detectedLang s) (currentSubtitle s) (cleanup s) (intervals s)
          (next_interval s) (now s + 1) (draws s)
    end.
Proof.
  intros Hs. pose proof (settled_timers s Hs) as Ht. clear Hs.
  destruct s as [u se st dl cs cl ivs nx nw dr]. sim_fields.
  destruct Ht as [[_ ->] | (id & iv & _ & ->)]; unfold tick; sim_fields;
    [done |].
  cbn [foldl]. unfold fire. sim_fields.
  destruct (nw + 1 =? due iv); [| reflexivity].
  unfold interval_callback, reschedule. destruct iv as [d [key b | name]];
    sim_fields; cbn [map fst snd]; by rewrite Nat.eqb_refl.
Qed.

Lemma tick_keeps s :
  settled translations s →
  user (tick random s) = user s
  ∧ subtitlesEnabled (tick random s) = subtitlesEnabled s
  ∧ isTranslationStopped (tick random s) = isTranslationStopped s
  ∧ detectedLang (tick random s) = detectedLang s.
Proof.
  intros Hs. rewrite tick_settled by done.
  destruct (intervals s) as [|[id iv] [|]]; try done.
  destruct (now s + 1 =? due iv); [| done]. by destruct (closure_t iv).
Qed.

Lemma same_deps_tick s :
  settled translations s → same_deps translations s (tick random s) = true.
Proof.
  intros Hs. destruct (tick_keeps s Hs) as (Hu & He & Hst & Hl).
  unfold same_deps, t. rewrite Hu, He, Hst, Hl.
  by rewrite !bool_decide_eq_true_2.
Qed.

Lemma step_tick s :
  settled translations s → step translations random s Tick = tick random s.
Proof. intros Hs. unfold step, commit, handle. by rewrite same_deps_tick. Qed.

Lemma settled_tick s :
  settled translations s → settled translations (tick random s).
Proof.
  intros Hs. rewrite tick_settled by done. revert Hs.
  destruct s as [u se st dl cs cl ivs nx nw dr].
  remember (t translations (mkState u se st dl cs cl ivs nx nw dr)) as tv
    eqn:Etv.
  assert (∀ cs' cl' ivs' nx' nw' dr',
            t translations (mkState u se st dl cs' cl' ivs' nx' nw' dr') = tv)
    as Ht by (intros; by subst tv).
  unfold settled, active. sim_fields. rewrite <- Etv.
  destruct (bool_decide (is_Some u) && se && negb st) eqn:Hact.
  - intros [(id & d & -> & Hc & Hid & Hd) Hcap]. sim_fields.
    destruct (Z.eqb_spec (nw + 1) d) as [Hfire | Hquiet].
    + destruct tv as [key b | name]; sim_fields; rewrite Hact, Ht.
      * split; [| right; by eexists key, b, _].
        exists id, (d + 3000). repeat split; try done; lia.
      * split; [| done].
        exists id, (d + 3000). repeat split; try done; lia.
    + sim_fields. rewrite Hact, Ht. split; [| done].
      exists id, d. repeat split; try done; lia.
  - intros (-> & Hc & Hcap). sim_fields. by rewrite Hact.
Qed.

Lemma settled_step s ev :
  settled translations s → settled translations (step translations random s ev).
Proof.
  intros Hs. unfold step, commit.
  destruct (same_deps translations s (handle random ev s)) eqn:Hdeps.
  - destruct ev; [| | | | by apply settled_tick];
      apply same_deps_fields in Hdeps as (Hu & He & Hst & Ht);
      (eapply settled_transfer; [.. | exact Hs]); try done; by destruct s.
  - apply settled_effect.
    destruct ev; [.. | apply settled_timers; by apply settled_tick];
      (destruct (settled_timers s Hs) as [[? ?] | (id & iv & ? & ?)];
       destruct s; cbn [handle]; sim_fields; subst;
       [by left | right; by eexists _, _]).
Qed.

Lemma settled_run evs : settled translations (run translations random evs).
Proof.
  unfold run. generalize (effect translations init), settled_mount.
  induction evs as [|ev evs IH]; intros s Hs; [done |].
  cbn [foldl]. by apply IH, settled_step.
Qed.

Lemma settled_foldl s evs :
  settled translations s →
  settled translations (foldl (step translations random) s evs).
Proof.
  revert s. induction evs as [|ev evs IH]; intros s Hs; [done |].
  cbn [foldl]. by apply IH, settled_step.
Qed.

Lemma period_succ (n : Z) :
  0 <= n →
  0 <= n / 3000
  ∧ (n + 1 = 3000 * (n / 3000 + 1) → (n + 1) / 3000 = n / 3000 + 1)
  ∧ (n + 1 ≠ 3000 * (n / 3000 + 1) → (n + 1) / 3000 = n / 3000).
Proof. intros Hn. Z.div_mod_to_equations. lia. Qed.

(** The state [n] time units after the effect ran in an active
    configuration whose [t] is a bundle, in closed form: [n / 3000]
    firings have happened. *)
Lemma ticks_after_effect (h : State) (key : string) (b : Bundle) (n : nat) :
  (cleanup h = None ∧ intervals h = [])
  ∨ (∃ id iv, cleanup h = Some id ∧ intervals h = [(id, iv)]) →
  active h = true → t translations h = BundleObj key b →
  let smp := subtitleSamples b in
  let q := Z.of_nat n / 3000 in
  foldl (step translations random) (effect translations (effect_cleanup h))
        (replicate n Tick)
  = mkState (user h) (subtitlesEnabled h) (isTranslationStopped h)
            (detectedLang h)
            (if q =? 0 then Some (translationActive b)
             else sample_at smp
                    (randomIndex (random (draws h + Z.to_nat q - 1)%nat)
                                 (length smp)))
            (Some (next_interval h))
            [(next_interval h,
              mkInterval (now h + 3000 * (q + 1)) (BundleObj key b))]
            (S (next_interval h))
            (now h + Z.of_nat n)
            (draws h + Z.to_nat q)%nat.
Proof.
  intros Hh Hact Ht smp. induction n as [|n IH].
  - cbn [replicate foldl Z.of_nat]. rewrite effect_after_cleanup by done.
    rewrite Hact, Ht. change (Z.of_nat 0 `div` 3000) with 0.
    cbn [Z.eqb Z.to_nat translationActive_of].
    f_equal; try (do 3 f_equal); lia.
  - pose proof (settled_foldl _ (replicate n Tick) (settled_effect h Hh))
      as Hsettled.
    rewrite replicate_S_end, foldl_app. cbn [foldl]. cbn zeta in IH.
    rewrite step_tick by done. rewrite IH in *. clear IH.
    rewrite tick_settled by done. sim_fields.
    set (q := Z.of_nat n / 3000). set (q' := Z.of_nat (S n) / 3000).
    destruct (period_succ (Z.of_nat n)) as (Hq & Hfire & Hquiet); [lia |].
    replace (Z.of_nat n + 1) with (Z.of_nat (S n)) in Hfire, Hquiet by lia.
    fold q q' in Hq, Hfire, Hquiet.
    destruct (Z.eqb_spec (now h + Z.of_nat n + 1) (now h + 3000 * (q + 1)))
      as [Hdue | Hdue].
    + assert (q' = q + 1) as -> by (apply Hfire; lia).
      rewrite (proj2 (Z.eqb_neq (q + 1) 0)) by lia.
      f_equal.
      * do 3 f_equal. lia.
      * do 3 f_equal. lia.
      * lia.
      * lia.
    + assert (q' = q) as -> by (apply Hquiet; lia).
      f_equal. lia.
Qed.

Lemma sample_at_in (l : list string) (i : Z) :
  0 <= i < Z.of_nat (length l) →
  ∃ c, sample_at l i = Some c ∧ c ∈ l.
Proof.
  intros Hi. unfold sample_at. rewrite (proj2 (Z.leb_le 0 i)) by lia.
  destruct (lookup_lt_is_Some_2 l (Z.to_nat i)) as [c Hc]; [lia |].
  exists c. split; [done |]. by eapply list_elem_of_lookup_2.
Qed.


(** Handlers leave the timers alone, and a tick keeps their shape. *)
Lemma handle_timers s ev :
  settled translations s →
  (cleanup (handle random ev s) = None ∧ intervals (handle random ev s) = [])
  ∨ (∃ id iv, cleanup (handle random ev s) = Some id
              ∧ intervals (handle random ev s) = [(id, iv)]).
Proof.
  intros Hs.
  destruct ev; [.. | apply settled_timers; by apply settled_tick];
    (destruct (settled_timers s Hs) as [[? ?] | (id & iv & ? & ?)];
     destruct s; cbn [handle]; sim_fields; subst;
     [by left | right; by eexists _, _]).
Qed.

Lemma settled_inherited s name :
  settled translations s → active s = true →
  t translations s = InheritedObj name →
  currentSubtitle s = None
  ∧ ∃ id when_due, intervals s = [(id, mkInterval when_due (InheritedObj name))].
Proof.
  unfold settled. intros Hs Hact Ht. rewrite Hact, Ht in Hs.
  destruct Hs as [(id & d & Hi & _) Hcap]. split; [| by exists id, d].
  destruct Hcap as [Hcap | (key & b & i & [=] & _)]. exact Hcap.
Qed.


End Simulator.

(* ===================================================================== *)
(** * Properties of the authentication modal *)
(* ===================================================================== *)

(** C9. Submitting with an empty email or an empty password sets the
    fill-in-the-fields message and does nothing else: no provider call is
    made, the in-flight flag and the modal are left as they were.  With
    both fields non-empty exactly the provider call of the action is made,
    and whether it resolves or rejects the in-flight flag and the action
    in progress are cleared when the handler returns; on success the modal
    is closed, on failure the mapped message is shown. *)
Theorem C9_auth_action_validation (t : Bundle) (action : AuthModal.AuthAction)
    (outcome : AuthModal.Outcome) (s : AuthModal.State) :
  let s' := AuthModal.handleAuthAction t action outcome s in
  (AuthModal.email s = "" ∨ AuthModal.password s = "" →
     AuthModal.error s' = Some (errorFillFields t)
     ∧ AuthModal.provider_calls s' = AuthModal.provider_calls s
     ∧ AuthModal.loading s' = AuthModal.loading s
     ∧ AuthModal.closed s' = AuthModal.closed s)
  ∧ (AuthModal.email s ≠ "" → AuthModal.password s ≠ "" →
     AuthModal.provider_calls s'
     = AuthModal.provider_calls s
       ++ [match action with
           | AuthModal.register =>
               AuthModal.createUserWithEmailAndPassword
                 (AuthModal.email s) (AuthModal.password s)
           | AuthModal.login =>
               AuthModal.signInWithEmailAndPassword
                 (AuthModal.email s) (AuthModal.password s)
           end]
     ∧ AuthModal.loading s' = false
     ∧ AuthModal.actionInProgress s' = None
     ∧ match outcome with
       | AuthModal.Resolves =>
           AuthModal.closed s' = true ∧ AuthModal.error s' = None
       | AuthModal.Rejects code =>
           AuthModal.error s' = Some (fst (AuthModal.handleFirebaseError t code))
           ∧ AuthModal.closed s' = AuthModal.closed s
       end).
Proof.
  destruct s as [em pw ld ap er calls cl logs].
  unfold AuthModal.handleAuthAction, truthy. cbn [AuthModal.email AuthModal.password].
  split.
  - intros [-> | ->]; cbn; [done |].
    by rewrite orb_true_r.
  - intros Hem Hpw. rewrite !bool_decide_eq_true_2 by done. cbn [negb orb].
    unfold AuthModal.try_auth.
    destruct action, outcome as [|code]; cbn;
      try destruct (AuthModal.handleFirebaseError t code) as [msg [|]]; done.
Qed.

(* ===================================================================== *)
(** * The properties at concrete inputs *)
(* ===================================================================== *)

(** C1 at a concrete pass: the durable record says ["es"], the local
    store ["fr"], the locale ["pt-BR"]. *)
Lemma C1_priority_order_witness :
  let env := Resolver.mkEnv false false {[ "youvoix-lang" := "fr" ]} "pt-BR"
               (Resolver.FetchJson (Some "MX")) in
  let store : gmap string (gmap string string) :=
    {[ "alice" := {[ "language" := "es" ]} ]} in
  Resolver.detectedLang
    (Resolver.loadUserProfile Samples.catalog env (Some Samples.alice)
       (Resolver.start "en" store)) = "es"
  ∧ Resolver.detectedLang
      (Resolver.loadUserProfile Samples.catalog env None
         (Resolver.start "en" store)) = "fr".
Proof.
  intros env store. split.
  - refine (proj1 (proj1 (C1_priority_order Samples.catalog env "en" store "es" _)
                     Samples.alice {[ "language" := "es" ]} _ _ _));
      reflexivity.
  - refine (proj1 (proj2 (C1_priority_order Samples.catalog env "en" store "fr" _) _));
      reflexivity.
Defined.

(** C2, the behaviour of the code at the failing input: the durable record
    holds ["de"], which is not in the catalog, and the local store holds
    the supported ["es"]; the pass adopts ["de"] and stops without reading
    the local store. *)
Theorem C2_unsupported_durable_code_is_adopted :
  let env := Resolver.mkEnv false false {[ "youvoix-lang" := "es" ]} "fr-FR"
               Resolver.FetchRejects in
  let store : gmap string (gmap string string) :=
    {[ "alice" := {[ "language" := "de" ]} ]} in
  let w' := Resolver.loadUserProfile Samples.catalog env (Some Samples.alice)
              (Resolver.start "en" store) in
  Samples.catalog !! "de" = None
  ∧ Resolver.supported Samples.catalog "es" = true
  ∧ Resolver.detectedLang w' = "de"
  ∧ Resolver.trace w'
    = [Resolver.DurableGet "alice"; Resolver.SetDetectedLang "de"].
Proof. repeat split; reflexivity. Qed.

(** C4 as stated fails: with an identity present, no durable record and
    ["es"] in the local store, the pass resolves ["es"] from the local
    store and returns without writing anything back. *)
Lemma C4_counterexample :
  let env := Resolver.mkEnv false false {[ "youvoix-lang" := "es" ]} "fr-FR"
               Resolver.FetchRejects in
  let w := Resolver.start "en" ∅ in
  let w' := Resolver.loadUserProfile Samples.catalog env (Some Samples.alice) w in
  Resolver.durable_hit env (Some Samples.alice) w = false
  ∧ Resolver.detectedLang w' = "es"
  ∧ Resolver.db w' !! "alice" = None
  ∧ List.filter Resolver.is_write (Resolver.trace w') = []
  ∧ ¬ Resolver.written_back_as_specified Samples.catalog env Samples.alice w.
Proof.
  intros env w w'. repeat split; try reflexivity.
  intros H. specialize (H eq_refl eq_refl). cbv zeta in H.
  change (Resolver.db w' !! "alice") with (@None (gmap string string)) in H.
  discriminate H.
Qed.

(** C4 (amended) at a concrete pass: no language in the record, nothing in
    the local store, an unsupported locale, and a Brazilian address. *)
Lemma C4_write_back_after_auto_detection_witness :
  let env := Resolver.mkEnv false false ∅ "de-DE" (Resolver.FetchJson (Some "BR")) in
  let store : gmap string (gmap string string) :=
    {[ "alice" := {[ "plan" := "pro" ]} ]} in
  let w' := Resolver.loadUserProfile Samples.catalog env (Some Samples.alice)
              (Resolver.start "en" store) in
  last (Resolver.trace w')
  = Some (Resolver.DurableSetMerge "alice" {[ "language" := "pt" ]})
  ∧ Resolver.db w'
    = Resolver.set_merge "alice" {[ "language" := "pt" ]} store.
Proof.
  intros env store w'.
  pose proof (C4_write_back_after_auto_detection Samples.catalog env
                Samples.alice "en" store eq_refl eq_refl) as (Hlast & _ & Hdb & _).
  split; [exact Hlast | exact Hdb].
Defined.

(** C5 at two concrete passes: a supported locale, and no signal with a
    failing lookup. *)
Lemma C5_geolocation_last_resort_witness :
  let env1 := Resolver.mkEnv false false ∅ "fr-FR" Resolver.FetchRejects in
  let env2 := Resolver.mkEnv false false ∅ "de-DE" Resolver.FetchRejects in
  let w1 := Resolver.loadUserProfile Samples.catalog env1 None (Resolver.start "en" ∅) in
  let w2 := Resolver.loadUserProfile Samples.catalog env2 None (Resolver.start "es" ∅) in
  (Resolver.detectedLang w1 = "fr"
   ∧ List.filter Resolver.is_fetch (Resolver.trace w1) = [])
  ∧ Resolver.detectedLang w2 = "en".
Proof.
  intros env1 env2 w1 w2. split.
  - refine (proj1 (proj2 (C5_geolocation_last_resort Samples.catalog env1
                            None "en" ∅)) _ _ _); reflexivity.
  - refine (proj1 (proj2 (proj2 (C5_geolocation_last_resort Samples.catalog env2
                                   None "es" ∅)) _ _)); reflexivity.
Defined.

(** C10 at a concrete pass: the read throws, the local store holds no
    language, the locale is not in the catalog and the address is
    Brazilian. *)
Lemma C10_durable_read_failure_falls_through_witness :
  let env := Resolver.mkEnv true false ∅ "de-DE"
               (Resolver.FetchJson (Some "BR")) in
  let w' := Resolver.loadUserProfile Samples.catalog env (Some Samples.alice)
              (Resolver.start "en" ∅) in
  Resolver.detectedLang w' = "pt"
  ∧ Resolver.trace w'
    = [Resolver.DurableGet "alice"; Resolver.ConsoleError;
       Resolver.LocalStorageGet "youvoix-lang";
       Resolver.Fetch "https://ipapi.co/json/";
       Resolver.SetDetectedLang "pt";
       Resolver.DurableSetMerge "alice" {[ "language" := "pt" ]}].
Proof.
  intros env w'.
  exact (proj2 (proj2 (proj2
           (C10_durable_read_failure_falls_through Samples.catalog env
              Samples.alice "en" ∅ eq_refl))) eq_refl eq_refl).
Defined.

(** C3 as stated fails: log in, expand the settings, click outside.  The
    panel is closed and [isSettingsOpen] is still true. *)
Lemma C3_counterexample :
  let s := App.run [App.AuthStateChanged (Some Samples.alice);
                    App.SettingsClick;
                    App.DocumentMouseDown App.Elsewhere] in
  App.isPanelOpen s = false
  ∧ App.isSettingsOpen s = true
  ∧ ¬ App.panel_invariant s.
Proof.
  intros s. assert (App.isPanelOpen s = false) as Hp by by vm_compute.
  assert (App.isSettingsOpen s = true) as Hs by by vm_compute.
  split; [done | split; [done |]].
  intros H. specialize (H Hs). congruence.
Qed.

(** C3 (amended) after a login with the settings expanded: the timeout
    armed at login is pending, and its expiry closes the panel only. *)
Lemma C3_close_keeps_settings_flag_witness :
  let s := App.run [App.AuthStateChanged (Some Samples.alice); App.SettingsClick] in
  App.isPanelOpen (App.step s (App.DocumentMouseDown App.Elsewhere)) = false
  ∧ App.isPanelOpen (App.step s (App.TimeoutFires 1)) = false
  ∧ App.isSettingsOpen (App.step s (App.TimeoutFires 1)) = true.
Proof.
  intros s.
  pose proof (C3_close_keeps_settings_flag
                [App.AuthStateChanged (Some Samples.alice); App.SettingsClick]
                App.Elsewhere 1) as (_ & Hclick & Hexpire & _).
  split; [apply Hclick; reflexivity |].
  apply Hexpire. vm_compute. reflexivity.
Defined.

(** C8 after a login: the pointer leaves the panel. *)
Lemma C8_single_inactivity_timer_witness :
  let s := App.run [App.AuthStateChanged (Some Samples.alice)] in
  App.timeouts (App.step s App.PanelMouseLeave) = {[ 2%nat ]}
  ∧ App.timeouts (App.step s (App.AuthStateChanged None)) = ∅.
Proof.
  intros s.
  pose proof (C8_single_inactivity_timer [App.AuthStateChanged (Some Samples.alice)])
    as (_ & _ & _ & Hleave & Hclose).
  split; [apply Hleave; reflexivity | apply Hclose; reflexivity].
Defined.


(** C9 on the freshly opened modal: both fields are empty. *)
Lemma C9_auth_action_validation_witness :
  let s' := AuthModal.handleAuthAction (Samples.bundle "en") AuthModal.login
              AuthModal.Resolves AuthModal.init in
  AuthModal.error s' = Some "fill" ∧ AuthModal.provider_calls s' = [].
Proof.
  intros s'.
  pose proof (proj1 (C9_auth_action_validation (Samples.bundle "en")
                       AuthModal.login AuthModal.Resolves AuthModal.init)
                (or_introl eq_refl)) as (Herr & Hcalls & _).
  split; [exact Herr | exact Hcalls].
Defined.

(* ===================================================================== *)
(** * Further properties of the resolution pass *)
(* ===================================================================== *)

Section PassProperties.
Import Resolver.
Context (tr : Translations) (env : Env).

Ltac unfold_pass :=
  unfold loadUserProfile, exec, loadUserProfile_body, detect_by_ip, doc_get,
    localStorage_getItem, doc_set_merge, setDetectedLang, emit, skip, return_,
    start, durable_hit, local_hit, locale_hit;
  unfold mbind, mret, Async_bind, Async_ret, bind, ret;
  cbn [snd fst trace db detectedLang].

Ltac reduce_pass :=
  cbn [snd fst trace db detectedLang fmap option_fmap option_map negb andb orb
       app List.filter is_fetch is_write PassEvents.is_set_lang
       PassEvents.is_durable length].

Ltac cases_pass :=
  repeat (match goal with
   | |- context [get_rejects ?e] => destruct (get_rejects e) eqn:?
   | |- context [set_rejects ?e] => destruct (set_rejects e) eqn:?
   | |- context [match stored_language ?x with _ => _ end] =>
       destruct (stored_language x) eqn:?
   | |- context [match localStorage ?e !! ?k with _ => _ end] =>
       destruct (localStorage e !! k) eqn:?
   | |- context [supported ?t ?l] => destruct (supported t l) eqn:?
   | |- context [bool_decide (is_Some (?t !! ?k))] =>
       destruct (bool_decide (is_Some (t !! k))) eqn:?
   | |- context [ipapi ?e] => destruct (ipapi e) as [|[?|]] eqn:?
   | |- context [truthy ?l] => destruct (truthy l) eqn:?
   | |- context [langMap ?l] => destruct (langMap l) eqn:?
   end; reduce_pass).

(** Every pass sets the effective language exactly once.  A pass without
    identity never touches the durable store; a pass with an identity
    writes at most once, only the [language] field it resolved and only to
    that identity's record, and leaves every other record as it was. *)
Theorem pass_effects (user : option User) (lang0 : string) (store : Store) :
  let w' := loadUserProfile tr env user (start lang0 store) in
  List.filter PassEvents.is_set_lang (trace w')
  = [SetDetectedLang (detectedLang w')]
  ∧ match user with
    | None =>
        db w' = store ∧ List.filter PassEvents.is_durable (trace w') = []
    | Some u =>
        (List.filter is_write (trace w') = []
         ∨ List.filter is_write (trace w')
           = [DurableSetMerge (uid u) {[ "language" := detectedLang w' ]}])
        ∧ ∀ id, id ≠ uid u → db w' !! id = store !! id
    end.
Proof.
  destruct user as [u|]; unfold_pass; cases_pass;
    (split; [done |]); try done.
  all: split; [by auto |]; try done.
  all: intros id Hid; unfold set_merge; by rewrite lookup_insert_ne.
Qed.

(** ** Running the pass again *)

Lemma merged_language id l (s : Store) :
  stored_language (Some ({[ "language" := l ]} ∪ default ∅ (s !! id)))
  = if truthy l then Some l else None.
Proof.
  unfold stored_language.
  by rewrite (lookup_union_Some_l _ _ _ l) by apply lookup_singleton_eq.
Qed.

Lemma set_merge_lookup id (f : Doc) (s : Store) :
  set_merge id f s !! id = Some (f ∪ default ∅ (s !! id)).
Proof. unfold set_merge. by rewrite lookup_insert_eq. Qed.

Lemma set_merge_idemp id (f : Doc) (s : Store) :
  set_merge id f (set_merge id f s) = set_merge id f s.
Proof.
  unfold set_merge at 1. rewrite set_merge_lookup. cbn.
  rewrite (assoc_L (∪)), (idemp_L (∪)). unfold set_merge.
  by rewrite insert_insert_eq.
Qed.

(** The three ways a pass ends: the durable record is adopted, the local
    store is adopted, or the language is auto-detected and written back.
    The auto-detected language depends on the surroundings only. *)
Lemma pass_outcome (user : option User) (w : World) :
  let w' := loadUserProfile tr env user w in
  let auto := detectedLang (loadUserProfile tr env None (start "" ∅)) in
  (durable_hit env user w = true
   ∧ (∃ u, user = Some u
           ∧ stored_language (db w !! uid u) = Some (detectedLang w'))
   ∧ db w' = db w)
  ∨ (durable_hit env user w = false ∧ local_hit tr env = true
     ∧ localStorage env !! "youvoix-lang" = Some (detectedLang w')
     ∧ db w' = db w)
  ∨ (durable_hit env user w = false ∧ local_hit tr env = false
     ∧ detectedLang w' = auto
     ∧ db w' = match user with
               | Some u =>
                   if set_rejects env then db w
                   else set_merge (uid u) {[ "language" := auto ]} (db w)
               | None => db w
               end).
Proof.
  destruct user as [u|]; unfold_pass; cases_pass.
  all: try (left; split; [done | split; [by eexists | done]]).
  all: try (right; left; done).
  all: right; right; done.
Qed.

(** Running the pass a second time in the same surroundings changes
    neither the effective language nor the durable store.  When the local
    store supplies nothing, the read works and the write is accepted, the
    second pass finds the (non-empty) language in the durable record. *)
Theorem pass_idempotent (user : option User) (w : World) :
  let w1 := loadUserProfile tr env user w in
  let w2 := loadUserProfile tr env user w1 in
  (detectedLang w2 = detectedLang w1 ∧ db w2 = db w1)
  ∧ (local_hit tr env = false → get_rejects env = false →
     set_rejects env = false → truthy (detectedLang w1) = true →
     ∀ u, user = Some u → durable_hit env user w1 = true).
Proof.
  intros w1 w2.
  pose proof (pass_outcome user w) as H1.
  pose proof (pass_outcome user w1) as H2.
  cbn zeta in H1, H2. fold w1 in H1, H2. fold w2 in H2.
  set (auto := detectedLang (loadUserProfile tr env None (start "" ∅))) in *.
  destruct H1 as [(Hd & (u & -> & Hst) & Hdb)
                 | [(Hd & Hl & Hloc & Hdb) | (Hd & Hl & Hlang & Hdb)]].
  - (* the durable record was adopted *)
    assert (durable_hit env (Some u) w1 = true) as Hd1.
    { unfold durable_hit in *. by rewrite Hdb. }
    split; [| by intros; subst].
    destruct H2 as [(_ & (u' & [= <-] & Hst2) & Hdb2)
                   | [(Hd2 & _) | (Hd2 & _)]]; try congruence.
    rewrite Hdb in Hst2. split; congruence.
  - (* the local store was adopted *)
    split; [| congruence].
    assert (durable_hit env user w1 = false) as Hd1.
    { unfold durable_hit in *. by rewrite Hdb. }
    destruct H2 as [(Hd2 & _) | [(_ & _ & Hloc2 & Hdb2) | (_ & Hl2 & _)]];
      try congruence.
    split; congruence.
  - (* the language was auto-detected *)
    destruct user as [u|].
    + destruct (set_rejects env) eqn:Hset.
      * assert (durable_hit env (Some u) w1 = false) as Hd1.
        { unfold durable_hit in *. by rewrite Hdb. }
        split; [| discriminate].
        destruct H2 as [(Hd2 & _) | [(_ & Hl2 & _) | (_ & _ & Hlang2 & Hdb2)]];
          try congruence.
        split; congruence.
      * assert (stored_language (db w1 !! uid u)
                = if truthy auto then Some auto else None) as Hst1.
        { rewrite Hdb, set_merge_lookup. apply merged_language. }
        split.
        -- destruct H2 as [(Hd2 & (u' & [= <-] & Hst2) & Hdb2)
                          | [(_ & Hl2 & _) | (_ & _ & Hlang2 & Hdb2)]];
             try congruence.
           ++ rewrite Hst1 in Hst2. destruct (truthy auto); [| done].
              split; congruence.
           ++ split; [congruence |].
              rewrite Hdb2, Hdb. apply set_merge_idemp.
        -- intros _ Hget _ Htruthy u' [= <-]. unfold durable_hit.
           rewrite Hget, Hst1. rewrite Hlang in Htruthy. rewrite Htruthy.
           done.
    + split; [| discriminate].
      destruct H2 as [(Hd2 & _) | [(_ & Hl2 & _) | (_ & _ & Hlang2 & Hdb2)]];
        [discriminate Hd2 | congruence | split; congruence].
Qed.

(** ** Locale tags *)

Lemma primary_subtag_region (l region : string) :
  primary_subtag l = l → primary_subtag (l +:+ "-" +:+ region) = l.
Proof.
  change ("-" +:+ region) with (String "-"%char region).
  induction l as [|c l IH]; [done |].
  change (primary_subtag (String c l +:+ String "-"%char region))
    with (if Ascii.eqb c "-" then EmptyString
          else String c (primary_subtag (l +:+ String "-"%char region))).
  cbn [primary_subtag].
  destruct (Ascii.eqb c "-"); [done |]. intros [= H]. by rewrite IH.
Qed.

(** A regional variant of a catalog language resolves to that language,
    without a geolocation lookup, when neither the durable record nor the
    local store supplies a language.  A language code is hyphen-free, that
    is, it is its own primary subtag. *)
Theorem regional_locale_resolves (user : option User) (lang0 : string)
    (store : Store) (l region : string) :
  is_Some (tr !! l) → primary_subtag l = l →
  navigator_language env = l +:+ "-" +:+ region →
  durable_hit env user (start lang0 store) = false →
  local_hit tr env = false →
  let w' := loadUserProfile tr env user (start lang0 store) in
  detectedLang w' = l ∧ List.filter is_fetch (trace w') = [].
Proof.
  intros Hsup Hl Hnav.
  assert (locale_hit tr env = true) as Hloc.
  { unfold locale_hit. rewrite Hnav, primary_subtag_region by done.
    by apply bool_decide_eq_true_2. }
  revert Hloc. destruct user as [u|]; unfold_pass; cases_pass;
    intros Hloc Hd Hlh; try discriminate;
    by rewrite Hnav, primary_subtag_region.
Qed.

End PassProperties.

(* ===================================================================== *)
(** * Properties of the explicit language choice *)
(* ===================================================================== *)

Section PreferencesProperties.
Import Resolver.
Context (tr : Translations).

Ltac unfold_next_pass :=
  unfold Preferences.env_of, Preferences.world_of,
    Preferences.handleLanguageChange,
    loadUserProfile, exec, loadUserProfile_body, detect_by_ip, doc_get,
    localStorage_getItem, doc_set_merge, setDetectedLang, emit, skip, return_,
    start;
  unfold mbind, mret, Async_bind, Async_ret, bind, ret;
  cbn [snd fst trace db detectedLang get_rejects set_rejects localStorage
       navigator_language ipapi Preferences.detectedLang Preferences.db
       Preferences.localStorage Preferences.alerts Preferences.console_errors].

Lemma stored_after_choice id l (s : Store) :
  truthy l = true →
  stored_language (set_merge id {[ "language" := l ]} s !! id) = Some l.
Proof.
  intros Hl. unfold set_merge, stored_language. rewrite lookup_insert_eq.
  rewrite (lookup_union_Some_l _ _ _ l) by apply lookup_singleton_eq.
  by rewrite Hl.
Qed.

(** A language chosen in the selector is remembered.  For a supported
    code: a later pass without identity resolves it from the local store,
    even when the durable write of the choice failed; and when the durable
    write was accepted, a later pass for the same identity resolves it too,
    whether its durable read works (from the record) or throws (from the
    local store).  Locale and geolocation play no part. *)
Theorem language_choice_is_remembered (set_rejects0 : bool) (user : option User)
    (newLang : string) (s : Preferences.State)
    (get_rejects1 set_rejects1 : bool) (nav : string) (geo : FetchResult) :
  supported tr newLang = true →
  let s' := Preferences.handleLanguageChange set_rejects0 user newLang s in
  let env := Preferences.env_of get_rejects1 set_rejects1 nav geo s' in
  Preferences.detectedLang s' = newLang
  ∧ detectedLang (loadUserProfile tr env None (Preferences.world_of s')) = newLang
  ∧ (set_rejects0 = false →
     detectedLang (loadUserProfile tr env user (Preferences.world_of s'))
     = newLang).
Proof.
  intros Hsup.
  assert (truthy newLang = true) as Htr.
  { unfold supported in Hsup. by apply andb_prop in Hsup as [? _]. }
  split; [by destruct user, set_rejects0 |]. split.
  - destruct user as [u|], set_rejects0; unfold_next_pass;
      by rewrite lookup_insert_eq, Hsup.
  - intros ->. destruct user as [u|]; unfold_next_pass.
    + destruct get_rejects1; cbn [snd fst trace db detectedLang].
      * by rewrite lookup_insert_eq, Hsup.
      * by rewrite stored_after_choice.
    + by rewrite lookup_insert_eq, Hsup.
Qed.

(** A failed durable write of the choice is reported and not undone: the
    new language stays applied and stored locally, one alert is raised and
    the durable store is untouched.  The next pass for that identity then
    still finds the previously stored code in the durable record and goes
    back to it. *)
Theorem failed_choice_is_lost_on_next_pass (u : User) (newLang old : string)
    (s : Preferences.State) (set_rejects1 : bool) (nav : string)
    (geo : FetchResult) :
  stored_language (Preferences.db s !! uid u) = Some old →
  let s' := Preferences.handleLanguageChange true (Some u) newLang s in
  let env := Preferences.env_of false set_rejects1 nav geo s' in
  Preferences.detectedLang s' = newLang
  ∧ Preferences.localStorage s' !! "youvoix-lang" = Some newLang
  ∧ Preferences.db s' = Preferences.db s
  ∧ Preferences.alerts s'
    = Preferences.alerts s
      ++ ["Could not save language preference. Please try again."]
  ∧ detectedLang (loadUserProfile tr env (Some u) (Preferences.world_of s'))
    = old.
Proof.
  intros Hold. cbn zeta.
  split; [done |]. split; [apply lookup_insert_eq |].
  split; [done |]. split; [done |].
  unfold_next_pass. by rewrite Hold.
Qed.

End PreferencesProperties.

(* ===================================================================== *)
(** * Further properties of the panel and of the floating control *)
(* ===================================================================== *)

Section PanelProperties.
Import App.

Ltac app_fields :=
  unfold setIsPanelOpen, setIsSettingsOpen, setIsAuthModalOpen, setLoading,
    setUser, set_timers, set_listeners, set_style in *;
  cbn [user loading isAuthModalOpen isPanelOpen isSettingsOpen
       inactivityTimerRef timeouts next_timer outside_listener hover_listeners
       style negb andb orb panel_contains button_contains] in *.

(** A handler that changes nothing is followed by a render that changes
    nothing. *)
Lemma commit_same s : coherent s → commit s s = s.
Proof.
  intros (Hok & _ & _ & Hh). rewrite commit_eq by done. cbn zeta.
  rewrite bool_decide_eq_true_2 by done.
  destruct s as [u ld am po so ref ts nx ol hl sty]. app_fields.
  destruct hl; [| done]. by rewrite Hh.
Qed.

Lemma step_enter s :
  coherent s → hover_listeners s = true →
  step s PanelMouseEnter
  = set_timers (inactivityTimerRef s) ∅ (next_timer s) s.
Proof.
  intros Hs Hhl. pose proof Hs as (Hok & _ & _ & Hh).
  unfold step, handle. rewrite Hhl, clear_inactivity_eq by done.
  specialize (Hh Hhl). rewrite commit_eq.
  - destruct s as [u ld am po so ref ts nx ol hl sty]. app_fields.
    unfold panel_mounted in *. app_fields.
    rewrite bool_decide_eq_true_2 by done. app_fields. by rewrite Hhl, Hh.
  - destruct s. by eapply timers_ok_cleared.
Qed.

Lemma step_leave s :
  coherent s → hover_listeners s = true →
  step s PanelMouseLeave
  = set_timers (Some (next_timer s)) {[ next_timer s ]} (S (next_timer s)) s.
Proof.
  intros Hs Hhl. pose proof Hs as (Hok & _ & _ & Hh).
  unfold step, handle. rewrite Hhl, resetInactivityTimer_eq by done.
  specialize (Hh Hhl). rewrite commit_eq.
  - destruct s as [u ld am po so ref ts nx ol hl sty]. app_fields.
    unfold panel_mounted in *. app_fields.
    rewrite bool_decide_eq_true_2 by done. app_fields. by rewrite Hhl, Hh.
  - destruct s. by eapply timers_ok_armed.
Qed.

Lemma step_stale_timeout s id :
  coherent s → id ∉ timeouts s → step s (TimeoutFires id) = s.
Proof.
  intros Hs Hid. unfold step, handle.
  rewrite bool_decide_eq_false_2 by done. by apply commit_same.
Qed.

(** Listeners do not leak: in every reachable state the document-level
    [mousedown] listener is registered exactly while the panel is open,
    and the hover listeners exist only on a mounted panel, hence never
    while the panel is closed or the visitor is logged out. *)
Theorem listeners_follow_the_panel (evs : list Event) :
  let s := run evs in
  outside_listener s = isPanelOpen s
  ∧ (hover_listeners s = true →
     isPanelOpen s = true ∧ is_Some (user s) ∧ loading s = false).
Proof.
  intros s. destruct (coherent_run evs) as (_ & _ & Ho & Hh). fold s in Ho, Hh.
  split; [done |]. intros Hhl. specialize (Hh Hhl).
  unfold panel_mounted in Hh.
  apply andb_prop in Hh as [[Hl Hp]%andb_prop Hu%bool_decide_eq_true_1].
  by apply negb_true_iff in Hl.
Qed.

(** The pointer entering the panel suspends the auto-close: afterwards the
    panel is still open, no timeout is pending, and the firing of any
    timeout changes nothing.  The pointer leaving again arms one new
    timeout. *)
Theorem pointer_inside_suspends_auto_close (evs : list Event) :
  let s := run evs in
  hover_listeners s = true →
  let s1 := step s PanelMouseEnter in
  isPanelOpen s1 = true
  ∧ timeouts s1 = ∅
  ∧ (∀ id, step s1 (TimeoutFires id) = s1)
  ∧ timeouts (step s1 PanelMouseLeave) = {[ next_timer s1 ]}.
Proof.
  intros s Hhl s1. pose proof (coherent_run evs) as Hs. fold s in Hs.
  pose proof (coherent_step s PanelMouseEnter Hs) as Hs1. fold s1 in Hs1.
  assert (s1 = set_timers (inactivityTimerRef s) ∅ (next_timer s) s) as E
    by by apply step_enter.
  destruct Hs as (_ & _ & _ & Hh). specialize (Hh Hhl).
  assert (isPanelOpen s = true) as Hopen.
  { unfold panel_mounted in Hh. by destruct (loading s), (isPanelOpen s). }
  assert (timeouts s1 = ∅) as Hnone by (rewrite E; by destruct s).
  assert (hover_listeners s1 = true) as Hhl1 by (rewrite E; by destruct s).
  split; [rewrite E; by destruct s |]. split; [done |]. split.
  - intros id. apply step_stale_timeout; [done |].
    rewrite Hnone. apply not_elem_of_empty.
  - rewrite step_leave by done. by destruct s1.
Qed.

(** A [mousedown] inside the panel or on the floating control never
    dismisses the panel, and while the panel is closed no [mousedown]
    anywhere has any effect: the state is left exactly as it was. *)
Theorem inside_click_is_ignored (evs : list Event) (t : Target) :
  let s := run evs in
  t ≠ Elsewhere ∨ isPanelOpen s = false →
  step s (DocumentMouseDown t) = s.
Proof.
  intros s Hcase. pose proof (coherent_run evs) as Hs. fold s in Hs.
  unfold step.
  assert (handle (DocumentMouseDown t) s = s) as ->; [| by apply commit_same].
  unfold handle, handleOutsideClick.
  destruct Hs as (_ & _ & Ho & _). rewrite Ho.
  destruct Hcase as [Ht | ->]; [| done].
  destruct (isPanelOpen s); [| done].
  destruct t; try done; cbn; by rewrite ?andb_false_r.
Qed.

(** ** Before the first authentication notification *)

Lemma step_init_inert ev : Reposition.is_auth ev = false → step init ev = init.
Proof.
  intros Hev. unfold step. assert (handle ev init = init) as ->;
    [| apply commit_same, coherent_init].
  destruct ev; done.
Qed.

Lemma loading_step s ev :
  coherent s →
  loading (step s ev) = if Reposition.is_auth ev then false else loading s.
Proof.
  intros Hs. unfold step.
  rewrite commit_eq by by apply timers_ok_handle. cbn zeta.
  assert (loading (handle ev s)
          = if Reposition.is_auth ev then false else loading s) as <-.
  { destruct ev as [cu|tg|id| | | |b e moves]; cbn [Reposition.is_auth handle].
    - unfold onAuthStateChanged. by destruct cu, s.
    - unfold handleOutsideClick. destruct (outside_listener s); [| done].
      match goal with |- context [if ?c then _ else _] => destruct c end;
        by destruct s.
    - case_bool_decide; by destruct s.
    - destruct (hover_listeners s); [| done].
      rewrite clear_inactivity_eq by apply Hs. by destruct s.
    - destruct (hover_listeners s); [| done].
      rewrite resetInactivityTimer_eq by apply Hs. by destruct s.
    - destruct (panel_mounted s); by destruct s.
    - destruct (control_mounted s); [| done].
      pose proof (handleDrag_actions b (user s) e moves (style s)) as Ha.
      destruct (handleDrag _ _ _ _ _) as [acts st']. cbn in Ha. subst acts.
      by destruct (exceeds_threshold e moves), (user s), s. }
  destruct (handle ev s) as [u ld am po so ref ts nx ol hl sty]. app_fields.
  case_bool_decide; [done |]. by destruct po.
Qed.

(** Until the authentication provider has notified the overlay once,
    nothing is rendered and every other event (clicks, gestures, timers)
    leaves the initial state untouched; from the first notification on,
    the loading flag is cleared for good. *)
Theorem inert_until_first_auth_notification (evs : list Event) :
  (existsb Reposition.is_auth evs = false → run evs = init)
  ∧ (existsb Reposition.is_auth evs = true → loading (run evs) = false).
Proof.
  unfold run. split.
  - induction evs as [|ev evs IH] using rev_ind; [done |].
    rewrite existsb_app, foldl_app. cbn [existsb foldl].
    rewrite orb_false_r. intros [He Hev]%orb_false_elim.
    rewrite IH by done. by apply step_init_inert.
  - generalize init, coherent_init.
    induction evs as [|ev evs IH]; intros s Hs; [done |].
    cbn [existsb foldl]. intros Hauth.
    destruct (existsb Reposition.is_auth evs) eqn:Hrest.
    + apply IH; [by apply coherent_step | done].
    + rewrite orb_false_r in Hauth.
      assert (loading (step s ev) = false) as Hl0
        by (rewrite loading_step, Hauth; done).
      pose proof (coherent_step s ev Hs) as Hs'.
      revert Hl0 Hs' Hrest. generalize (step s ev). clear.
      induction evs as [|ev' evs IH]; intros s Hl Hs; [done |].
      cbn [existsb foldl]. intros [He Hrest]%orb_false_elim.
      apply IH; [| by apply coherent_step | done].
      by rewrite loading_step, He.
Qed.

(** ** Where the control ends up *)

Lemma moves_fold_style (b : Button) (e : MouseEvent) (moves : list MouseEvent)
    (moved : bool) (st : Style) :
  snd (foldl (fun d m => onMouseMove m d)
             (mkDrag moved (clientX e) (clientY e) (offsetLeft b) (offsetTop b),
              st)
             moves)
  = match last (List.filter (Reposition.beyond e) moves) with
    | Some m => Reposition.dragged_to b e m
    | None => st
    end.
Proof.
  revert moved st. induction moves as [|m moves IH]; intros moved st; [done |].
  cbn [foldl List.filter]. unfold onMouseMove at 2.
  cbn [startX startY startLeft startTop]. fold (Reposition.beyond e m).
  destruct (Reposition.beyond e m) eqn:Hm.
  - rewrite IH. rewrite last_cons.
    by destruct (last (List.filter (Reposition.beyond e) moves)).
  - apply IH.
Qed.

(** The control follows the pointer only beyond the threshold: after a
    gesture its inline style is what the last move further than 5 px from
    the mouse-down position wrote (offset at mouse-down plus the pointer
    delta, the right and bottom anchors released), and it is untouched
    when no move went that far.  Moves back within the threshold neither
    restore nor update the position. *)
Theorem control_position_after_gesture (b : Button) (u : option User)
    (e : MouseEvent) (moves : list MouseEvent) (st : Style) :
  snd (handleDrag (Some b) u e moves st)
  = match last (List.filter (Reposition.beyond e) moves) with
    | Some m => Reposition.dragged_to b e m
    | None => st
    end.
Proof.
  unfold handleDrag.
  rewrite <- (moves_fold_style b e moves false st).
  by destruct (foldl _ _ moves).
Qed.

End PanelProperties.

(* ===================================================================== *)
(** * Further properties of the subtitle simulator and of the overlay *)
(* ===================================================================== *)

Section OverlayProperties.
Import Subtitles.
Context (translations : Translations) (random : nat → Double).

Lemma step_reruns_effect s ev :
  same_deps translations s (handle random ev s) = false →
  step translations random s ev
  = effect translations (effect_cleanup (handle random ev s)).
Proof. intros Hdeps. unfold step, commit. by rewrite Hdeps. Qed.

Lemma step_keeps_effect s ev :
  same_deps translations s (handle random ev s) = true →
  step translations random s ev = handle random ev s.
Proof. intros Hdeps. unfold step, commit. by rewrite Hdeps. Qed.

(** What the cleanup followed by the body leaves untouched. *)
Lemma effect_keeps h :
  let s' := effect translations (effect_cleanup h) in
  user s' = user h ∧ subtitlesEnabled s' = subtitlesEnabled h
  ∧ isTranslationStopped s' = isTranslationStopped h
  ∧ detectedLang s' = detectedLang h ∧ now s' = now h ∧ draws s' = draws h.
Proof.
  unfold effect, effect_cleanup, active, set_timers, setCurrentSubtitle.
  destruct h as [u se st dl cs [id|] ivs nx nw dr];
    cbn [user subtitlesEnabled isTranslationStopped detectedLang cleanup
         intervals next_interval now draws currentSubtitle];
    by destruct (bool_decide (is_Some u) && se && negb st).
Qed.

(** The simulation for a language of the catalog.  In every reachable
    state the interval is live exactly when an identity is present,
    subtitles are enabled and translation is not stopped.  A step that ends
    with the conjunction false leaves an empty caption and no interval; a
    step that makes it true re-runs the effect.  When the effect is re-run
    with the conjunction true and [t] a bundle, the placeholder caption is
    shown at once, and [n] time units later the caption is still the
    placeholder when [n < 3000] and otherwise the sample picked at the last
    multiple of 3000 by [Math.floor(Math.random() * samples.length)],
    which for a draw in [0, 1) is an entry of the bundle's samples.  The
    index is the floor of the binary64 product: the draws that select
    entry [i] of [len] are those of [[i/len, (i+1)/len)], up to one
    rounding of the product at either end. *)
Theorem simulation_on_catalog_language (evs : list Event) (ev : Event)
    (n : nat) (key : string) (b : Bundle) :
  (∀ k, in_unit_interval (random k)) →
  let s := run translations random evs in
  let h := handle random ev s in
  let s' := step translations random s ev in
  let smp := subtitleSamples b in
  let len := Z.of_nat (length smp) in
  (intervals s ≠ []
   ↔ is_Some (user s) ∧ subtitlesEnabled s = true
     ∧ isTranslationStopped s = false)
  ∧ (active s' = false →
     currentSubtitle s' = Some "" ∧ intervals s' = [] ∧ cleanup s' = None)
  ∧ (active s = false → active s' = true →
     same_deps translations s h = false)
  ∧ (same_deps translations s h = false → active s' = true →
     t translations s' = BundleObj key b →
     currentSubtitle s' = Some (translationActive b)
     ∧ let sn := foldl (step translations random) s' (replicate n Tick) in
       let periods := Z.of_nat n / 3000 in
       active sn = true
       ∧ intervals sn
         = [(next_interval h,
             mkInterval (now s' + 3000 * (periods + 1)) (BundleObj key b))]
       ∧ cleanup sn = Some (next_interval h)
       ∧ draws sn = (draws s' + Z.to_nat periods)%nat
       ∧ currentSubtitle sn
         = (if Z.of_nat n <? 3000 then Some (translationActive b)
            else sample_at smp
                   (randomIndex (random (draws s' + Z.to_nat periods - 1)%nat)
                                (length smp)))
       ∧ (0 < len < 2 ^ 53 → 3000 <= Z.of_nat n →
          ∃ c, currentSubtitle sn = Some c ∧ c ∈ smp))
  ∧ (∀ (r : Double) (i : Z), in_unit_interval r → 0 < len < 2 ^ 53 →
       0 <= randomIndex r (length smp) < len
       ∧ (randomIndex r (length smp) = i →
          (inject_Z i * below_one <= value r * inject_Z len)%Q
          ∧ (value r * inject_Z len < inject_Z (i + 1))%Q)
       ∧ (0 <= i → (inject_Z i <= value r * inject_Z len)%Q →
          (value r * inject_Z len <= inject_Z (i + 1) * below_one)%Q →
          randomIndex r (length smp) = i)).
Proof.
  intros Hrandom s h s' smp len.
  pose proof (settled_run translations random evs) as Hs. fold s in Hs.
  pose proof (settled_step translations random s ev Hs) as Hs'. fold s' in Hs'.
  split; [| split; [| split; [| split]]].
  - rewrite <- active_iff. unfold settled in Hs. destruct (active s).
    + destruct Hs as [(id & d & -> & _) _]. done.
    + destruct Hs as (-> & _). split; [done | discriminate].
  - intros Hoff. unfold settled in Hs'. rewrite Hoff in Hs'.
    by destruct Hs' as (? & ? & ?).
  - intros Hoff Hon.
    destruct (same_deps translations s h) eqn:Hdeps; [| done].
    subst s'. rewrite step_keeps_effect in Hon by done. fold h in Hon.
    apply same_deps_fields in Hdeps as (Hu & He & Hst & _).
    unfold active in Hoff, Hon. rewrite Hu, He, Hst in Hoff. congruence.
  - intros Hdeps Hon Ht. subst s'.
    rewrite step_reruns_effect in * by done. fold h in Hon, Ht |- *.
    pose proof (handle_timers translations random s ev Hs) as Hh. fold h in Hh.
    destruct (effect_keeps h) as (Hu & He & Hst & Hl & Hnow & Hdr).
    assert (active h = true) as Hact.
    { unfold active in *. by rewrite <- Hu, <- He, <- Hst. }
    assert (t translations h = BundleObj key b) as Hth.
    { unfold t in *. by rewrite <- Hl. }
    pose proof (ticks_after_effect translations random h key b) as Hticks.
    split.
    { specialize (Hticks 0%nat Hh Hact Hth). cbn in Hticks. by rewrite Hticks. }
    cbn zeta. rewrite (Hticks n Hh Hact Hth). rewrite Hnow, Hdr.
    cbn [user subtitlesEnabled isTranslationStopped currentSubtitle intervals
         cleanup draws].
    assert (active
              (mkState (user h) (subtitlesEnabled h) (isTranslationStopped h)
                 (detectedLang h)
                 (if Z.of_nat n `div` 3000 =? 0
                  then Some (translationActive b)
                  else sample_at (subtitleSamples b)
                         (randomIndex
                            (random (draws h + Z.to_nat (Z.of_nat n `div` 3000) - 1)%nat)
                            (length (subtitleSamples b))))
                 (Some (next_interval h))
                 [(next_interval h,
                   mkInterval (now h + 3000 * (Z.of_nat n `div` 3000 + 1))
                     (BundleObj key b))]
                 (S (next_interval h)) (now h + Z.of_nat n)
                 (draws h + Z.to_nat (Z.of_nat n `div` 3000))) = true) as ->
      by exact Hact.
    assert ((Z.of_nat n `div` 3000 =? 0) = (Z.of_nat n <? 3000)) as ->.
    { destruct (Z.ltb_spec (Z.of_nat n) 3000).
      - rewrite Z.div_small by lia. done.
      - apply Z.eqb_neq. Z.div_mod_to_equations. lia. }
    repeat split; try done.
    intros Hlen Hn. rewrite (proj2 (Z.ltb_ge _ _)) by done.
    apply sample_at_in. by apply randomIndex_range.
  - intros r i Hr Hlen. by apply random_selection.
Qed.

(** No stale interval.  In every reachable state a live interval is the
    only one, it is the one the pending cleanup will clear, its callback
    holds the current [t], it comes due within one period, and the
    simulator is active.  When a change of language replaces [t] while the
    simulator is active, the interval that was live is cleared and a new
    one, with an identifier never used before, takes its place. *)
Theorem interval_is_never_stale (evs : list Event) :
  let s := run translations random evs in
  (∀ id iv, (id, iv) ∈ intervals s →
     intervals s = [(id, iv)]
     ∧ cleanup s = Some id
     ∧ closure_t iv = t translations s
     ∧ now s < due iv <= now s + 3000
     ∧ active s = true)
  ∧ (active s = true → ∃ id iv, intervals s = [(id, iv)])
  ∧ (∀ lang old,
       active s = true → cleanup s = Some old →
       let s' := step translations random s (SetDetectedLang lang) in
       t translations s' ≠ t translations s →
       intervals s'
       = [(next_interval s, mkInterval (now s + 3000) (t translations s'))]
       ∧ cleanup s' = Some (next_interval s)
       ∧ old ∉ (fst <$> intervals s')).
Proof.
  intros s. pose proof (settled_run translations random evs) as Hs. fold s in Hs.
  split; [| split].
  - intros id iv Hin. unfold settled in Hs. destruct (active s).
    + destruct Hs as [(id' & d & Hi & Hc & _ & Hd) _]. rewrite Hi in Hin.
      apply list_elem_of_singleton in Hin as [= -> ->]. by rewrite Hi.
    + destruct Hs as (Hi & _). rewrite Hi in Hin. by apply elem_of_nil in Hin.
  - intros Hact. unfold settled in Hs. rewrite Hact in Hs.
    destruct Hs as [(id & d & Hi & _) _]. by eexists _, _.
  - intros lang old Hact Hold s' Hchange.
    set (h := handle random (SetDetectedLang lang) s).
    assert (t translations h = t translations s') as Hth.
    { subst s'. unfold step, commit. fold h.
      destruct (same_deps translations s h); [done |].
      destruct (effect_keeps h) as (_ & _ & _ & Hl & _). unfold t.
      by rewrite Hl. }
    assert (same_deps translations s h = false) as Hdeps.
    { destruct (same_deps translations s h) eqn:Hdeps; [| done].
      apply same_deps_fields in Hdeps as (_ & _ & _ & Ht). congruence. }
    subst s'. rewrite step_reruns_effect in * by done. fold h in Hchange |- *.
    pose proof (handle_timers translations random s (SetDetectedLang lang) Hs)
      as Hh. fold h in Hh.
    rewrite effect_after_cleanup by done.
    assert (active h = true) as -> by (subst h; by destruct s).
    assert (next_interval h = next_interval s) as -> by (subst h; by destruct s).
    assert (now h = now s) as -> by (subst h; by destruct s).
    cbn [intervals cleanup fmap list_fmap fst].
    rewrite effect_after_cleanup in Hth by done.
    split; [done | split; [done |]].
    unfold settled in Hs. rewrite Hact in Hs.
    destruct Hs as [(id & d & _ & Hc & Hlt & _) _].
    rewrite Hold in Hc. injection Hc as ->.
    intros Hin%list_elem_of_singleton. lia.
Qed.

(** The caption on screen.  Once the effects of an update have run, the
    overlay shows a caption only while the simulator is active and [t] is a
    bundle of the catalog, and the caption is then that bundle's
    placeholder or one of its samples; with no identity, subtitles off or
    translation stopped nothing is shown, and nothing is shown while [t] is
    an inherited member.  The frame rendered after a handler and before
    the effect still shows the caption of the state before: after a change
    of language that is the caption of the former language. *)
Theorem displayed_caption_is_current (evs : list Event) :
  let s := run translations random evs in
  (∀ c, Overlay.displayed_caption s = Some c →
     active s = true
     ∧ ∃ key b, t translations s = BundleObj key b
                ∧ (c = translationActive b ∨ c ∈ subtitleSamples b))
  ∧ (active s = false → Overlay.displayed_caption s = None)
  ∧ (∀ name, t translations s = InheritedObj name →
       Overlay.displayed_caption s = None)
  ∧ (∀ lang,
       Overlay.displayed_caption (handle random (SetDetectedLang lang) s)
       = Overlay.displayed_caption s).
Proof.
  intros s. pose proof (settled_run translations random evs) as Hs. fold s in Hs.
  assert (∀ c, Overlay.displayed_caption s = Some c →
               active s = true ∧ currentSubtitle s = Some c ∧ c ≠ "") as Hshown.
  { intros c. unfold Overlay.displayed_caption, active, truthy.
    destruct (bool_decide (is_Some (user s))); cbn [andb]; [| done].
    destruct (isTranslationStopped s); cbn [negb andb]; [done |].
    destruct (currentSubtitle s) as [c'|]; [| done].
    destruct (subtitlesEnabled s); cbn [andb]; [| done].
    case_bool_decide; [| done]. by intros [= ->]. }
  split; [| split; [| split]].
  - intros c Hc. destruct (Hshown c Hc) as (Hact & Hcap & _).
    split; [done |]. unfold settled in Hs. rewrite Hact in Hs.
    destruct Hs as [_ [Hplace | (key & b & i & Ht & Hsample)]].
    + destruct (t translations s) as [key b | name] eqn:Ht;
        cbn [translationActive_of] in Hplace; [| congruence].
      exists key, b. split; [done |]. left. congruence.
    + exists key, b. split; [done |]. right.
      rewrite Hcap in Hsample. symmetry in Hsample. unfold sample_at in Hsample.
      destruct (0 <=? i); [| done]. by eapply list_elem_of_lookup_2.
  - intros Hoff. destruct (Overlay.displayed_caption s) as [c|]; [| done].
    destruct (Hshown c eq_refl) as (Hact & _). congruence.
  - intros name Ht. destruct (Overlay.displayed_caption s) as [c|]; [| done].
    destruct (Hshown c eq_refl) as (Hact & Hcap & _).
    destruct (settled_inherited translations s name Hs Hact Ht). congruence.
  - intros lang. by destruct s.
Qed.

End OverlayProperties.

(* ===================================================================== *)
(** * Further properties of the authentication modal *)
(* ===================================================================== *)

Ltac code_cases code :=
  repeat match goal with
         | |- context [decide (code = ?c)] => destruct (decide (code = c))
         end.

Ltac list_cases H :=
  repeat (apply elem_of_cons in H as [H | H]; [try (subst; done) |]);
  try (by apply elem_of_nil in H).

Lemma firebase_error_logged (t : Bundle) (code : string) :
  snd (AuthModal.handleFirebaseError t code)
  = negb (bool_decide
            (code ∈ ["auth/email-already-in-use"; "auth/invalid-email";
                     "auth/wrong-password"; "auth/user-not-found";
                     "auth/invalid-credential"; "auth/weak-password"])).
Proof.
  unfold AuthModal.handleFirebaseError.
  code_cases code; cbn [snd]; try (subst code; reflexivity).
  rewrite bool_decide_eq_false_2; [done |].
  intros Hin. list_cases Hin.
Qed.

Lemma firebase_error_message (t : Bundle) (code : string) :
  (code ∉ ["auth/email-already-in-use"; "auth/invalid-email";
           "auth/wrong-password"; "auth/user-not-found";
           "auth/invalid-credential"; "auth/weak-password"] →
   fst (AuthModal.handleFirebaseError t code) = errorUnexpected t)
  ∧ (code ∈ ["auth/wrong-password"; "auth/user-not-found";
             "auth/invalid-credential"] →
     fst (AuthModal.handleFirebaseError t code) = errorInvalidCredential t).
Proof.
  unfold AuthModal.handleFirebaseError.
  split; intros H; code_cases code; cbn [fst]; try done; exfalso.
  all: try (list_cases H; fail).
  all: apply H; subst code;
    repeat first [apply list_elem_of_here | apply list_elem_of_further].
Qed.

(** How a rejected provider call is reported.  The modal stays open with
    the fields as typed, so the visitor can retry, and the in-flight flag
    is cleared.  The error is written to the console exactly when its code
    is not one of the six recognised ones, and the message is then the
    generic one; wrong password, unknown user and invalid credential are
    reported by one and the same message.  A call that resolves logs
    nothing. *)
Theorem provider_failure_reporting (t : Bundle) (action : AuthModal.AuthAction)
    (code : string) (s : AuthModal.State) :
  AuthModal.email s ≠ "" → AuthModal.password s ≠ "" →
  let s' := AuthModal.handleAuthAction t action (AuthModal.Rejects code) s in
  let recognised := ["auth/email-already-in-use"; "auth/invalid-email";
                     "auth/wrong-password"; "auth/user-not-found";
                     "auth/invalid-credential"; "auth/weak-password"] in
  AuthModal.closed s' = AuthModal.closed s
  ∧ AuthModal.email s' = AuthModal.email s
  ∧ AuthModal.password s' = AuthModal.password s
  ∧ AuthModal.loading s' = false
  ∧ AuthModal.console_errors s'
    = AuthModal.console_errors s
      ++ (if bool_decide (code ∈ recognised) then [] else [code])
  ∧ (code ∉ recognised → AuthModal.error s' = Some (errorUnexpected t))
  ∧ (code ∈ ["auth/wrong-password"; "auth/user-not-found";
             "auth/invalid-credential"] →
     AuthModal.error s' = Some (errorInvalidCredential t))
  ∧ AuthModal.console_errors
      (AuthModal.handleAuthAction t action AuthModal.Resolves s)
    = AuthModal.console_errors s.
Proof.
  intros Hem Hpw. destruct s as [em pw ld ap er calls cl logs].
  cbn [AuthModal.email AuthModal.password] in Hem, Hpw.
  unfold AuthModal.handleAuthAction, truthy.
  cbn [AuthModal.email AuthModal.password].
  rewrite !bool_decide_eq_true_2 by done. cbn [negb orb].
  unfold AuthModal.try_auth.
  pose proof (firebase_error_logged t code) as Hlog.
  destruct (firebase_error_message t code) as [Hunexpected Hcredential].
  destruct (AuthModal.handleFirebaseError t code) as [msg logged].
  cbn [fst snd] in *. subst logged. cbn zeta.
  destruct (bool_decide (code ∈ _)), action; cbn;
    rewrite ?app_nil_r;
    (split; [done | split; [done | split; [done | split; [done |
       split; [done | split; [| split; [| done]]]]]]]);
    intros H; f_equal; auto.
Qed.

(* ===================================================================== *)
(** * Properties of the content script *)
(* ===================================================================== *)

Section BootstrapProperties.
Import Bootstrap.

Lemma elem_of_count (id : string) (l : list string) :
  id ∈ l ↔ length (List.filter (String.eqb id) l) ≠ 0%nat.
Proof.
  induction l as [|x l IH]; cbn.
  - split; [by intros ?%elem_of_nil | done].
  - rewrite elem_of_cons, IH.
    destruct (String.eqb_spec id x) as [-> | Hne]; cbn.
    + split; [intros _; lia | by left].
    + split; [by intros [? | ?] | by right].
Qed.

Lemma occurrences_head_snoc (id x : string) (h b : list string) :
  occurrences id (mkDocument (h ++ [x]) b)
  = (occurrences id (mkDocument h b) + if String.eqb id x then 1 else 0)%nat.
Proof.
  unfold occurrences. cbn [head body].
  rewrite !List.filter_app, !length_app. cbn [List.filter].
  destruct (String.eqb id x); cbn [length]; lia.
Qed.

Lemma occurrences_body_snoc (id x : string) (h b : list string) :
  occurrences id (mkDocument h (b ++ [x]))
  = (occurrences id (mkDocument h b) + if String.eqb id x then 1 else 0)%nat.
Proof.
  unfold occurrences. cbn [head body].
  rewrite !List.filter_app, !length_app. cbn [List.filter].
  destruct (String.eqb id x); cbn [length]; lia.
Qed.

Lemma content_script_once (d : Document) :
  occurrences "tailwind-cdn-script" (content_script d)
  = Nat.max 1 (occurrences "tailwind-cdn-script" d)
  ∧ occurrences "voxly-chrome-extension-root" (content_script d)
    = S (occurrences "voxly-chrome-extension-root" d).
Proof.
  unfold content_script, getElementById. destruct d as [h b]. cbn [head body].
  assert (String.eqb "tailwind-cdn-script" "tailwind-cdn-script" = true)
    as Ess by reflexivity.
  assert (String.eqb "tailwind-cdn-script" "voxly-chrome-extension-root" = false)
    as Esr by reflexivity.
  assert (String.eqb "voxly-chrome-extension-root" "tailwind-cdn-script" = false)
    as Ers by reflexivity.
  assert (String.eqb "voxly-chrome-extension-root" "voxly-chrome-extension-root"
          = true) as Err by reflexivity.
  case_bool_decide as Hin; cbn [negb head body];
    rewrite !occurrences_body_snoc, ?occurrences_head_snoc, ?Ess, ?Esr, ?Ers, ?Err.
  - apply elem_of_count in Hin.
    change (occurrences "tailwind-cdn-script" (mkDocument h b) ≠ 0%nat) in Hin.
    lia.
  - assert (occurrences "tailwind-cdn-script" (mkDocument h b) = 0%nat) as Hz.
    { destruct (occurrences _ _) eqn:E; [done |]. destruct Hin.
      apply elem_of_count.
      change (occurrences "tailwind-cdn-script" (mkDocument h b) ≠ 0%nat).
      by rewrite E. }
    lia.
Qed.

(** The content script injects the stylesheet loader at most once but not
    the root container: however often it runs on a document (at least
    once), the document ends up with exactly one element with the loader's
    id if it had none, and with as many as it had otherwise, while every
    run appends one more root container with the same id. *)
Theorem injection_guarded_for_script_only (d : Document) (n : nat) :
  let d' := Nat.iter (S n) content_script d in
  occurrences "tailwind-cdn-script" d'
  = Nat.max 1 (occurrences "tailwind-cdn-script" d)
  ∧ occurrences "voxly-chrome-extension-root" d'
    = (occurrences "voxly-chrome-extension-root" d + S n)%nat.
Proof.
  induction n as [|n [IHs IHr]]; cbn zeta in *.
  - cbn [Nat.iter nat_rect]. destruct (content_script_once d). split; lia.
  - change (Nat.iter (S (S n)) content_script d)
      with (content_script (Nat.iter (S n) content_script d)).
    destruct (content_script_once (Nat.iter (S n) content_script d)) as [Hs Hr].
    rewrite Hs, Hr, IHs, IHr. split; lia.
Qed.

End BootstrapProperties.

(* ===================================================================== *)
(** * The further properties at concrete inputs *)
(* ===================================================================== *)

(** A pass for alice that auto-detects French leaves bob's record alone. *)
Lemma pass_effects_witness :
  let env := Resolver.mkEnv false false ∅ "fr-FR" Resolver.FetchRejects in
  let store : gmap string (gmap string string) :=
    {[ "bob" := {[ "language" := "pt" ]} ]} in
  Resolver.db (Resolver.loadUserProfile Samples.catalog env (Some Samples.alice)
                 (Resolver.start "en" store)) !! "bob"
  = Some {[ "language" := "pt" ]}.
Proof.
  intros env store.
  destruct (pass_effects Samples.catalog env (Some Samples.alice) "en" store)
    as (_ & _ & Hother).
  rewrite (Hother "bob"); [reflexivity | discriminate].
Defined.

(** Two passes for alice in a row, the first one auto-detecting. *)
Lemma pass_idempotent_witness :
  let env := Resolver.mkEnv false false ∅ "fr-FR" Resolver.FetchRejects in
  let w1 := Resolver.loadUserProfile Samples.catalog env (Some Samples.alice)
              (Resolver.start "en" ∅) in
  Resolver.detectedLang
    (Resolver.loadUserProfile Samples.catalog env (Some Samples.alice) w1)
  = Resolver.detectedLang w1
  ∧ Resolver.durable_hit env (Some Samples.alice) w1 = true.
Proof.
  intros env w1.
  destruct (pass_idempotent Samples.catalog env (Some Samples.alice)
              (Resolver.start "en" ∅)) as [[Hlang _] Hhit].
  split; [exact Hlang |].
  apply (Hhit eq_refl eq_refl eq_refl eq_refl Samples.alice eq_refl).
Defined.

(** Brazilian Portuguese resolves to Portuguese. *)
Lemma regional_locale_resolves_witness :
  let env := Resolver.mkEnv false false ∅ "pt-BR" Resolver.FetchRejects in
  Resolver.detectedLang
    (Resolver.loadUserProfile Samples.catalog env None (Resolver.start "en" ∅))
  = "pt".
Proof.
  intros env.
  refine (proj1 (regional_locale_resolves Samples.catalog env None "en" ∅
                   "pt" "BR" _ _ _ _ _));
    try reflexivity. eexists; reflexivity.
Defined.

(** Alice picks French while her durable write fails; a later logged-out
    visit still starts in French. *)
Lemma language_choice_is_remembered_witness :
  let s := Preferences.mkState "en" ∅ ∅ 0 [] in
  let s' := Preferences.handleLanguageChange true (Some Samples.alice) "fr" s in
  let env := Preferences.env_of false false "pt-BR" Resolver.FetchRejects s' in
  Resolver.detectedLang
    (Resolver.loadUserProfile Samples.catalog env None (Preferences.world_of s'))
  = "fr".
Proof.
  intros s s' env.
  exact (proj1 (proj2 (language_choice_is_remembered Samples.catalog true
                         (Some Samples.alice) "fr" s false false "pt-BR"
                         Resolver.FetchRejects eq_refl))).
Defined.

(** Alice, whose record says Spanish, picks French while the durable write
    fails; her next pass is back to Spanish. *)
Lemma failed_choice_is_lost_on_next_pass_witness :
  let s := Preferences.mkState "es" {[ "alice" := {[ "language" := "es" ]} ]}
             ∅ 0 [] in
  let s' := Preferences.handleLanguageChange true (Some Samples.alice) "fr" s in
  let env := Preferences.env_of false false "pt-BR" Resolver.FetchRejects s' in
  Preferences.detectedLang s' = "fr"
  ∧ Resolver.detectedLang
      (Resolver.loadUserProfile Samples.catalog env (Some Samples.alice)
         (Preferences.world_of s'))
    = "es".
Proof.
  intros s s' env.
  destruct (failed_choice_is_lost_on_next_pass Samples.catalog Samples.alice
              "fr" "es" s false "pt-BR" Resolver.FetchRejects eq_refl)
    as (Hnow & _ & _ & _ & Hnext).
  split; [exact Hnow | exact Hnext].
Defined.

(** After a login the hover listeners sit on an open panel. *)
Lemma listeners_follow_the_panel_witness :
  App.isPanelOpen (App.run [App.AuthStateChanged (Some Samples.alice)]) = true.
Proof.
  exact (proj1 (proj2 (listeners_follow_the_panel
                         [App.AuthStateChanged (Some Samples.alice)]) eq_refl)).
Defined.

(** After a login, with the pointer inside the panel, the timeout armed at
    login no longer closes it. *)
Lemma pointer_inside_suspends_auto_close_witness :
  let s := App.run [App.AuthStateChanged (Some Samples.alice)] in
  let s1 := App.step s App.PanelMouseEnter in
  App.isPanelOpen (App.step s1 (App.TimeoutFires 1)) = true.
Proof.
  intros s s1.
  destruct (pointer_inside_suspends_auto_close
              [App.AuthStateChanged (Some Samples.alice)] eq_refl)
    as (Hopen & _ & Hstale & _).
  fold s in Hopen, Hstale. fold s1 in Hopen, Hstale.
  rewrite Hstale. exact Hopen.
Defined.

(** A click inside the open panel. *)
Lemma inside_click_is_ignored_witness :
  let s := App.run [App.AuthStateChanged (Some Samples.alice)] in
  App.step s (App.DocumentMouseDown App.OnPanel) = s.
Proof.
  intros s.
  apply (inside_click_is_ignored [App.AuthStateChanged (Some Samples.alice)]
           App.OnPanel).
  left. discriminate.
Defined.

(** Clicks before the provider has answered. *)
Lemma inert_until_first_auth_notification_witness :
  App.run [App.SettingsClick;
           App.ControlGesture (App.mkButton 10 10) (App.mkMouse 0 0) [];
           App.DocumentMouseDown App.Elsewhere]
  = App.init.
Proof.
  apply (proj1 (inert_until_first_auth_notification _)). reflexivity.
Defined.

(** The interval after a login and a change of language to Spanish: the
    one created at login is gone. *)
Lemma interval_is_never_stale_witness :
  let random := fun _ : nat => Subtitles.mkDouble (2 ^ 52) (-53) in
  let s := Subtitles.run Samples.catalog random
             [Subtitles.SetUser (Some Samples.alice)] in
  let s' := Subtitles.step Samples.catalog random s
              (Subtitles.SetDetectedLang "es") in
  Subtitles.intervals s'
  = [(2%nat, Subtitles.mkInterval 3000
               (Subtitles.BundleObj "es" (Samples.bundle "es")))]
  ∧ Subtitles.cleanup s' = Some 2%nat
  ∧ 1%nat ∉ (fst <$> Subtitles.intervals s').
Proof.
  intros random s s'.
  refine (proj2 (proj2 (interval_is_never_stale Samples.catalog random
                          [Subtitles.SetUser (Some Samples.alice)]))
            "es" 1%nat eq_refl eq_refl _).
  discriminate.
Defined.

(** The caption on screen right after a login. *)
Lemma displayed_caption_is_current_witness :
  let random := fun _ : nat => Subtitles.mkDouble (2 ^ 52) (-53) in
  let s := Subtitles.run Samples.catalog random
             [Subtitles.SetUser (Some Samples.alice)] in
  Subtitles.active s = true
  ∧ ∃ key b, Subtitles.t Samples.catalog s = Subtitles.BundleObj key b
             ∧ ("active:en" = translationActive b
                ∨ "active:en" ∈ subtitleSamples b).
Proof.
  intros random s.
  exact (proj1 (displayed_caption_is_current Samples.catalog random
                  [Subtitles.SetUser (Some Samples.alice)])
           "active:en" eq_refl).
Defined.

(** Three sample captions and every draw equal to one half: after a login
    the placeholder is shown, and 3000 time units later the second
    sample. *)
Lemma simulation_on_catalog_language_witness :
  let random := fun _ : nat => Subtitles.mkDouble (2 ^ 52) (-53) in
  let s := Subtitles.run Samples.catalog random [] in
  let s' := Subtitles.step Samples.catalog random s
              (Subtitles.SetUser (Some Samples.alice)) in
  Subtitles.currentSubtitle s' = Some "active:en"
  ∧ Subtitles.currentSubtitle
      (foldl (Subtitles.step Samples.catalog random) s'
             (replicate 3000 Subtitles.Tick))
    = Some "en-2".
Proof.
  intros random s s'.
  assert (∀ k : nat, Subtitles.in_unit_interval (random k)) as Hrandom.
  { intros k. unfold Subtitles.in_unit_interval, random. cbn. lia. }
  pose proof (simulation_on_catalog_language Samples.catalog random []
                (Subtitles.SetUser (Some Samples.alice)) 3000
                "en" (Samples.bundle "en") Hrandom)
    as (_ & _ & _ & Hrun & _).
  destruct (Hrun eq_refl eq_refl eq_refl) as (Hnow & _ & _ & _ & _ & Hlater & _).
  split; [exact Hnow |]. subst s' s. rewrite Hlater. reflexivity.
Defined.

(** A login rejected with a code the modal does not know. *)
Lemma provider_failure_reporting_witness :
  let s := AuthModal.mkState "alice@example.org" "secret" false None None
             [] false [] in
  let s' := AuthModal.handleAuthAction (Samples.bundle "en") AuthModal.login
              (AuthModal.Rejects "auth/network-request-failed") s in
  AuthModal.closed s' = false
  ∧ AuthModal.console_errors s' = ["auth/network-request-failed"].
Proof.
  intros s s'.
  destruct (provider_failure_reporting (Samples.bundle "en") AuthModal.login
              "auth/network-request-failed" s) as (Hc & _ & _ & _ & Hlog & _);
    [discriminate | discriminate |].
  split; [exact Hc | exact Hlog].
Defined.
